(** * Basic Memory: link resolution, entity repository, context tool and sync

    A shallow embedding of the parts of the Basic Memory sources that the
    specification talks about:

    - [PyStr]: the Python string operations the sources use
      ([lower], [split], [strip], [in], ...), over 8-bit strings;
    - [LinkResolver]: [services/link_resolver.py];
    - [EntityRepository]: [repository/entity_repository.py];
    - [BuildContext]: [mcp/tools/build_context.py];
    - [SyncService]: [sync/sync_service.py], over the interface of its
      collaborators;
    - [EntityStore], [ContextService]: the store and the context traversal,
      which the sources only exercise through their tests;
    - [FrontmatterRewrite]: [sync] over entity services that rewrite the
      frontmatter of a file.

    Scores are Python floats in the sources; they are modelled as exact
    rationals ([Q]), so that [0.5] is [1 # 2] and [0.2] is [1 # 5]. *)

From Stdlib Require Import List String Ascii Bool Arith ZArith QArith Lia.
From Stdlib Require DecimalString DecimalNat.
Import ListNotations.

Local Close Scope Q_scope.
Local Open Scope nat_scope.
Local Open Scope string_scope.
Local Open Scope list_scope.

(* ===================================================================== *)
(** ** Python strings *)
(* ===================================================================== *)

Module PyStr.

(** [str.isspace] on one character, for the 8-bit range: TAB..CR,
    FS..US and the blank. *)
Definition is_space (c : ascii) : bool :=
  let n := nat_of_ascii c in
  (((9 <=? n) && (n <=? 13)) || ((28 <=? n) && (n <=? 32)))%nat.

(** [str.lower] on one character: [A]..[Z] go to [a]..[z]. *)
Definition lower_ascii (c : ascii) : ascii :=
  let n := nat_of_ascii c in
  if ((65 <=? n) && (n <=? 90))%nat then ascii_of_nat (n + 32) else c.

(** [s.lower()] *)
Fixpoint lower (s : string) : string :=
  match s with
  | EmptyString => EmptyString
  | String c s' => String (lower_ascii c) (lower s')
  end.

(** [s.split(sep)] for a one-character separator: never empty. *)
Fixpoint split_on (sep : ascii) (s : string) : list string :=
  match s with
  | EmptyString => [EmptyString]
  | String c s' =>
      if Ascii.eqb c sep then EmptyString :: split_on sep s'
      else match split_on sep s' with
           | [] => [String c EmptyString]
           | w :: ws => String c w :: ws
           end
  end.

(** The word being read at the front of [s], and the words after it. *)
Fixpoint split_ws_aux (s : string) : string * list string :=
  match s with
  | EmptyString => (EmptyString, [])
  | String c s' =>
      let (w, ws) := split_ws_aux s' in
      if is_space c
      then (EmptyString, if String.eqb w EmptyString then ws else w :: ws)
      else (String c w, ws)
  end.

(** [s.split()]: the maximal runs of non-blank characters. *)
Definition split (s : string) : list string :=
  let (w, ws) := split_ws_aux s in
  if String.eqb w EmptyString then ws else w :: ws.

(** [needle in hay] *)
Fixpoint contains (needle hay : string) : bool :=
  String.prefix needle hay ||
  match hay with
  | EmptyString => false
  | String _ hay' => contains needle hay'
  end.

(** [l[-1]] *)
Definition last_item (l : list string) : option string :=
  match rev l with
  | [] => None
  | x :: _ => Some x
  end.

(** [s.lstrip()] *)
Fixpoint lstrip (s : string) : string :=
  match s with
  | EmptyString => EmptyString
  | String c s' => if is_space c then lstrip s' else s
  end.

(** The characters of [s], last first. *)
Fixpoint rev_string (s : string) : string :=
  match s with
  | EmptyString => EmptyString
  | String c s' => (rev_string s' ++ String c EmptyString)%string
  end.

(** [s.rstrip()] *)
Definition rstrip (s : string) : string := rev_string (lstrip (rev_string s)).

(** [s.strip()] *)
Definition strip (s : string) : string := rstrip (lstrip s).

(** [s.startswith(p)] *)
Definition startswith (p s : string) : bool := String.prefix p s.

(** [s.endswith(p)] *)
Definition endswith (p s : string) : bool :=
  String.prefix (rev_string p) (rev_string s).

(** [s[a:-b]] for [a + b <= len(s)], the empty string otherwise. *)
Definition slice_inner (a b : nat) (s : string) : string :=
  String.substring a (String.length s - a - b) s.

(** [s.split(sep, 1)] when [sep in s]: the text before the first [sep] and
    the text after it. *)
Fixpoint split_once (sep : ascii) (s : string) : option (string * string) :=
  match s with
  | EmptyString => None
  | String c s' =>
      if Ascii.eqb c sep then Some (EmptyString, s')
      else match split_once sep s' with
           | Some (a, b) => Some (String c a, b)
           | None => None
           end
  end.

End PyStr.

(* ===================================================================== *)
(** ** services/link_resolver.py *)
(* ===================================================================== *)

Module LinkResolver.

Import PyStr.

(** The fields of a [SearchResult] that the resolver reads. *)
Record SearchResult : Type := mkSearchResult
  { sr_id : Z;
    sr_permalink : string;
    sr_score : Q }.

(** [path_parts[-1] if path_parts else ""] for
    [path_parts = result.permalink.lower().split("/")]. *)
Definition last_part (result : SearchResult) : string :=
  match last_item (split_on "/"%char (lower (sr_permalink result))) with
  | Some p => p
  | None => EmptyString
  end.

(** [[term for term in terms if term in last_part]] *)
Definition term_matches (terms : list string) (lp : string) : list string :=
  filter (fun term => contains term lp) terms.

(** The body of the scoring loop of [_select_best_match] for one result. *)
Definition adjusted_score (search_text : string) (result : SearchResult) : Q :=
  let terms := split (lower search_text) in
  let score := sr_score result in
  let lp := last_part result in
  let score :=
    match term_matches terms lp with
    | [] => score
    | _ :: _ => (score * (1 # 2))%Q
    end in
  let score :=
    if String.eqb lp (lower search_text) then (score * (1 # 5))%Q else score in
  score.

(** [scored_results], in the order of [results]. *)
Definition scored_results (search_text : string) (results : list SearchResult)
  : list (Q * SearchResult) :=
  map (fun r => (adjusted_score search_text r, r)) results.

(** One step of a stable sort by decreasing key: [x] stood before every
    element of [l] in the unsorted list, so it goes before the first element
    whose key is not larger than its own. *)
Fixpoint insert_desc (x : Q * SearchResult) (l : list (Q * SearchResult))
  : list (Q * SearchResult) :=
  match l with
  | [] => [x]
  | y :: l' =>
      if Qle_bool (fst y) (fst x) then x :: y :: l'
      else y :: insert_desc x l'
  end.

(** [l.sort(key=lambda x: x[0], reverse=True)]: stable, largest key first. *)
Definition sort_reverse (l : list (Q * SearchResult)) : list (Q * SearchResult) :=
  fold_right insert_desc [] l.

(** [_select_best_match]: [None] stands for the [ValueError] on an empty
    list. *)
Definition _select_best_match (search_text : string) (results : list SearchResult)
  : option SearchResult :=
  match results with
  | [] => None
  | _ :: _ =>
      match sort_reverse (scored_results search_text results) with
      | [] => None
      | (_, r) :: _ => Some r
      end
  end.

(** [_normalize_link_text] *)
Definition _normalize_link_text (link_text : string) : string * option string :=
  let text := strip link_text in
  let text :=
    if startswith "[[" text && endswith "]]" text then slice_inner 2 2 text
    else text in
  match split_once "|"%char text with
  | Some (t, alias) => (strip t, Some (strip alias))
  | None => (text, None)
  end.

Section Resolve.

(** The entity model and the two collaborators of the resolver. *)
Variable Entity : Type.
Variable get_by_permalink : string -> option Entity.
Variable get_by_title : string -> option Entity.
(** [search_service.search(SearchQuery(text=..., types=[ENTITY]))] *)
Variable search : string -> list SearchResult.

(** [resolve_link] *)
Definition resolve_link (link_text : string) : option Entity :=
  let (clean_text, _) := _normalize_link_text link_text in
  match get_by_permalink clean_text with
  | Some entity => Some entity
  | None =>
      match get_by_title clean_text with
      | Some entity => Some entity
      | None =>
          match search clean_text with
          | [] => None
          | r :: rs =>
              match _select_best_match clean_text (r :: rs) with
              | Some best_match => get_by_permalink (sr_permalink best_match)
              | None => None
              end
          end
      end
  end.

End Resolve.

End LinkResolver.

(* ===================================================================== *)
(** ** Facts about the link resolver *)
(* ===================================================================== *)

Module LinkResolverFacts.

Import PyStr LinkResolver.

(** The two factors the scoring loop can apply. *)
Definition term_factor (search_text : string) (result : SearchResult) : Q :=
  match term_matches (split (lower search_text)) (last_part result) with
  | [] => 1
  | _ :: _ => 1 # 2
  end.

Definition exact_factor (search_text : string) (result : SearchResult) : Q :=
  if String.eqb (last_part result) (lower search_text) then 1 # 5 else 1.

(** Whatever the number of matching terms, the score is halved at most
    once. *)
Lemma adjusted_score_factors (search_text : string) (result : SearchResult) :
  (adjusted_score search_text result ==
   sr_score result * term_factor search_text result
                   * exact_factor search_text result)%Q.
Proof.
  unfold adjusted_score, term_factor, exact_factor.
  destruct (term_matches _ _); destruct (String.eqb _ _); ring.
Qed.

(** The head of the sorted list carries a largest key of the list. *)
Lemma sort_reverse_head (l : list (Q * SearchResult)) :
  match sort_reverse l with
  | [] => l = []
  | x :: _ => In x l /\ forall y, In y l -> (fst y <= fst x)%Q
  end.
Proof.
  induction l as [|x l IH]; simpl; [reflexivity|].
  destruct (sort_reverse l) as [|[k r] t] eqn:E; simpl.
  - subst l. split; [now left|].
    intros y [<-|[]]. apply Qle_refl.
  - destruct IH as [Hin Hmax].
    destruct (Qle_bool k (fst x)) eqn:Hle.
    + apply Qle_bool_iff in Hle. split; [now left|].
      intros y [<-|Hy]; [apply Qle_refl|].
      eapply Qle_trans; [apply (Hmax y Hy)|exact Hle].
    + split; [now right|].
      intros y [<-|Hy]; [|apply (Hmax y Hy)].
      simpl. apply Qlt_le_weak, Qnot_le_lt.
      intro Hc. apply Qle_bool_iff in Hc. simpl in Hle. congruence.
Qed.

(** [_select_best_match] answers on every non-empty list, and its answer has
    the largest adjusted score of the list. *)
Lemma select_best_match_largest (search_text : string) (r0 : SearchResult)
    (rs : list SearchResult) :
  exists best,
    _select_best_match search_text (r0 :: rs) = Some best /\
    In best (r0 :: rs) /\
    forall r, In r (r0 :: rs) ->
      (adjusted_score search_text r <= adjusted_score search_text best)%Q.
Proof.
  unfold _select_best_match.
  pose proof (sort_reverse_head (scored_results search_text (r0 :: rs))) as H.
  destruct (sort_reverse (scored_results search_text (r0 :: rs)))
    as [|[k best] t]; [discriminate H|].
  destruct H as [Hin Hmax]. exists best. split; [reflexivity|].
  unfold scored_results in Hin, Hmax.
  apply in_map_iff in Hin. destruct Hin as [b [Hb Hinb]].
  inversion Hb; subst. split; [exact Hinb|].
  intros r Hr.
  apply (Hmax (adjusted_score search_text r, r)).
  apply in_map_iff. exists r. split; [reflexivity|exact Hr].
Qed.

(** A result whose last permalink component holds both words of the
    search text. *)
Definition foo_bar_result : SearchResult :=
  {| sr_id := 1; sr_permalink := "docs/foo-bar"; sr_score := 4 |}.

(** C4. The per-token reading of the 0.5 multiplier (a result matching k
    tokens keeps [0.5^k] of its score) against the scoring loop: for the
    search text [foo bar] and the permalink [docs/foo-bar] both tokens
    occur in the last component, and the score 4 becomes 2, not 1. *)
Theorem select_best_match_halves_once :
  term_matches (split (lower "foo bar")) (last_part foo_bar_result)
    = ["foo"; "bar"] /\
  String.eqb (last_part foo_bar_result) (lower "foo bar") = false /\
  (adjusted_score "foo bar" foo_bar_result == 4 * (1 # 2))%Q /\
  ~ (adjusted_score "foo bar" foo_bar_result == 4 * ((1 # 2) * (1 # 2)))%Q.
Proof.
  repeat split; try reflexivity.
  vm_compute. discriminate.
Qed.

(** Two results that match no term of the search text. *)
Definition near_result : SearchResult :=
  {| sr_id := 1; sr_permalink := "notes/alpha"; sr_score := 1 |}.

Definition far_result : SearchResult :=
  {| sr_id := 2; sr_permalink := "notes/beta"; sr_score := 2 |}.

(** A repository of two entities, known by their ids, neither of which
    has the permalink or the title [zeta]. *)
Definition two_entities (permalink : string) : option Z :=
  if String.eqb permalink "notes/alpha" then Some 1%Z
  else if String.eqb permalink "notes/beta" then Some 2%Z
  else None.

(** C5. Returning the result with the lowest adjusted score, against the
    descending sort of [_select_best_match]: of two results with adjusted
    scores 1 and 2, in either order, the one with score 2 is returned, and
    [resolve_link] falls back to the entity of that result. *)
Theorem select_best_match_returns_highest :
  (adjusted_score "zeta" near_result == 1)%Q /\
  (adjusted_score "zeta" far_result == 2)%Q /\
  _select_best_match "zeta" [near_result; far_result] = Some far_result /\
  _select_best_match "zeta" [far_result; near_result] = Some far_result /\
  resolve_link Z two_entities (fun _ => None)
    (fun _ => [near_result; far_result]) "[[zeta]]" = Some 2%Z.
Proof.
  repeat split; reflexivity.
Qed.

End LinkResolverFacts.

(* ===================================================================== *)
(** ** repository/entity_repository.py *)
(* ===================================================================== *)

Module EntityRepository.

Import PyStr.

(** The columns of the two tables that the repository's queries read. *)
Record Entity : Type := mkEntity
  { id : Z;
    name : string;
    entity_type : string;
    description : option string;
    path_id : string }.

Record Observation : Type := mkObservation
  { obs_id : Z;
    obs_entity_id : Z;
    obs_content : string }.

Record Database : Type := mkDatabase
  { entity_table : list Entity;
    observation_table : list Observation }.

(** SQL [LIKE] without an escape character: [%] matches any run of
    characters, [_] any one character, every other character itself. *)
Fixpoint like (pattern : string) : string -> bool :=
  match pattern with
  | EmptyString => fun s => String.eqb s EmptyString
  | String c pattern' =>
      if Ascii.eqb c "%"%char then
        fix star (s : string) : bool :=
          like pattern' s ||
          match s with
          | EmptyString => false
          | String _ s' => star s'
          end
      else if Ascii.eqb c "_"%char then
        fun s => match s with
                 | EmptyString => false
                 | String _ s' => like pattern' s'
                 end
      else
        fun s => match s with
                 | EmptyString => false
                 | String d s' => Ascii.eqb c d && like pattern' s'
                 end
  end.

(** [column.ilike(pattern)]: [lower(column) LIKE lower(pattern)]. *)
Definition ilike (column pattern : string) : bool :=
  like (lower pattern) (lower column).

(** [ilike] on a nullable column: NULL never satisfies the disjunction. *)
Definition ilike_null (column : option string) (pattern : string) : bool :=
  match column with
  | Some v => ilike v pattern
  | None => false
  end.

(** The statements the repository sends to the session. *)
Inductive Statement : Type :=
  | SelectSearch (search_term : string)
  | SelectPathIdIn (path_ids : list string).

(** The [where] clause of [search]. *)
Definition search_where (search_term : string) (d : Database) (e : Entity) : bool :=
  ilike (name e) search_term
  || ilike (entity_type e) search_term
  || ilike_null (description e) search_term
  || existsb (fun o => Z.eqb (obs_entity_id o) (id e)
                       && ilike (obs_content o) search_term)
             (observation_table d).

(** The rows a statement selects. *)
Definition run (stmt : Statement) (d : Database) : list Entity :=
  match stmt with
  | SelectSearch search_term =>
      filter (search_where search_term d) (entity_table d)
  | SelectPathIdIn path_ids =>
      filter (fun e => existsb (String.eqb (path_id e)) path_ids) (entity_table d)
  end.

(** A session: the database and the statements executed so far, latest
    first. *)
Record Session : Type := mkSession
  { db : Database;
    executed : list Statement }.

Definition M (A : Type) : Type := Session -> A * Session.

Definition ret {A : Type} (a : A) : M A := fun s => (a, s).

Definition bind {A B : Type} (m : M A) (f : A -> M B) : M B :=
  fun s => let (a, s') := m s in f a s'.

Notation "x <- m ;; k" := (bind m (fun x => k))
  (at level 61, m at next level, right associativity).

(** [execute_query] *)
Definition execute_query (stmt : Statement) : M (list Entity) :=
  fun s => (run stmt (db s), {| db := db s; executed := stmt :: executed s |}).

(** [search] *)
Definition search (query_str : string) : M (list Entity) :=
  let search_term := ("%" ++ query_str ++ "%")%string in
  execute_query (SelectSearch search_term).

(** [find_by_path_ids] *)
Definition find_by_path_ids (path_ids : list string) : M (list Entity) :=
  match path_ids with
  | [] => ret []
  | _ :: _ => execute_query (SelectPathIdIn path_ids)
  end.

Section Delete.

(** [Repository.delete_by_ids], of the base class. *)
Variable delete_by_ids : list Z -> M Z.

(** [delete_by_path_ids] *)
Definition delete_by_path_ids (path_ids : list string) : M Z :=
  match path_ids with
  | [] => ret 0%Z
  | _ :: _ =>
      entities <- find_by_path_ids path_ids ;;
      match entities with
      | [] => ret 0%Z
      | _ :: _ => delete_by_ids (map id entities)
      end
  end.

End Delete.

End EntityRepository.

(* ===================================================================== *)
(** ** Facts about the entity repository *)
(* ===================================================================== *)

Module EntityRepositoryFacts.

Import PyStr EntityRepository.

(** [q] holds one of the two [LIKE] wildcards. *)
Fixpoint has_wildcard (q : string) : bool :=
  match q with
  | EmptyString => false
  | String c q' => Ascii.eqb c "%"%char || Ascii.eqb c "_"%char || has_wildcard q'
  end.

(** [q] occurs in [s], letter case apart. *)
Definition icontains (q s : string) : bool := contains (lower q) (lower s).

(** The four fields of the docstring of [search], read as substring
    tests. *)
Definition mentions (q : string) (d : Database) (e : Entity) : bool :=
  icontains q (name e)
  || icontains q (entity_type e)
  || match description e with Some v => icontains q v | None => false end
  || existsb (fun o => Z.eqb (obs_entity_id o) (id e) && icontains q (obs_content o))
             (observation_table d).

Lemma like_percent (s : string) : like "%" s = true.
Proof.
  induction s as [|c s IH]; [reflexivity|].
  simpl in *. exact IH.
Qed.

Lemma like_literal_then_percent (q s : string) :
  has_wildcard q = false -> like (q ++ "%")%string s = String.prefix q s.
Proof.
  revert s. induction q as [|c q IH]; intros s Hq.
  - cbn [String.append]. rewrite (like_percent s). destruct s; reflexivity.
  - simpl in Hq. apply orb_false_iff in Hq. destruct Hq as [Hc Hq].
    apply orb_false_iff in Hc. destruct Hc as [Hp Hu].
    change (String c q ++ "%")%string with (String c (q ++ "%")%string).
    cbn [like]. rewrite Hp, Hu.
    destruct s as [|d s]; [reflexivity|].
    rewrite (IH s Hq). cbn [String.prefix].
    destruct (ascii_dec c d) as [->|Hne].
    + now rewrite Ascii.eqb_refl.
    + apply Ascii.eqb_neq in Hne. now rewrite Hne.
Qed.

Lemma like_percent_cons (p s : string) :
  like (String "%" p) s =
  like p s || match s with
              | EmptyString => false
              | String _ s' => like (String "%" p) s'
              end.
Proof. destruct s; reflexivity. Qed.

Lemma like_substring (q s : string) :
  has_wildcard q = false -> like ("%" ++ q ++ "%")%string s = contains q s.
Proof.
  intro Hq. change ("%" ++ q ++ "%")%string with (String "%" (q ++ "%")%string).
  induction s as [|c s IH].
  - rewrite like_percent_cons, (like_literal_then_percent q _ Hq).
    simpl. now rewrite orb_false_r.
  - rewrite like_percent_cons, (like_literal_then_percent q _ Hq), IH.
    reflexivity.
Qed.

Lemma lower_ascii_wildcard (c : ascii) :
  Ascii.eqb (lower_ascii c) "%"%char = Ascii.eqb c "%"%char /\
  Ascii.eqb (lower_ascii c) "_"%char = Ascii.eqb c "_"%char.
Proof.
  destruct c as [[] [] [] [] [] [] [] []]; split; reflexivity.
Qed.

Lemma lower_has_wildcard (q : string) : has_wildcard (lower q) = has_wildcard q.
Proof.
  induction q as [|c q IH]; [reflexivity|].
  simpl. destruct (lower_ascii_wildcard c) as [-> ->]. now rewrite IH.
Qed.

Lemma lower_app (a b : string) : lower (a ++ b)%string = (lower a ++ lower b)%string.
Proof.
  induction a as [|c a IH]; [reflexivity|]. simpl. now rewrite IH.
Qed.

Lemma ilike_substring (q column : string) :
  has_wildcard q = false -> ilike column ("%" ++ q ++ "%")%string = icontains q column.
Proof.
  intro Hq. unfold ilike, icontains.
  rewrite !lower_app. change (lower "%") with "%".
  apply like_substring. now rewrite lower_has_wildcard.
Qed.

Lemma search_where_mentions (q : string) (d : Database) (e : Entity) :
  has_wildcard q = false ->
  search_where ("%" ++ q ++ "%")%string d e = mentions q d e.
Proof.
  intro Hq. unfold search_where, mentions, ilike_null.
  rewrite !(ilike_substring q _ Hq).
  f_equal; [f_equal|].
  - destruct (description e); [now apply ilike_substring|reflexivity].
  - induction (observation_table d) as [|o l IH]; [reflexivity|].
    cbn [existsb]. now rewrite IH, (ilike_substring q _ Hq).
Qed.

(** C9. On the empty list, [find_by_path_ids] answers the empty list and
    [delete_by_path_ids] answers 0, and neither touches the session: no
    statement is executed and the database is the same, whatever
    [delete_by_ids] does. *)
Theorem path_ids_empty_input (delete_by_ids : list Z -> M Z) (s : Session) :
  find_by_path_ids [] s = ([], s) /\
  delete_by_path_ids delete_by_ids [] s = (0%Z, s).
Proof. split; reflexivity. Qed.

(** An entity none of whose fields holds an underscore. *)
Definition plain_entity : Entity :=
  {| id := 1; name := "a"; entity_type := "b"; description := None;
     path_id := "b/a" |}.

Definition plain_session : Session :=
  {| db := {| entity_table := [plain_entity]; observation_table := [] |};
     executed := [] |}.

(** C10, as stated: the query [_] is no substring of any field of
    [plain_entity], and [search] returns the entity all the same, because
    the query is spliced into a [LIKE] pattern. *)
Lemma search_underscore_not_substring :
  ~ (forall (q : string) (s : Session) (e : Entity),
       In e (fst (search q s)) <->
       In e (entity_table (db s)) /\ mentions q (db s) e = true).
Proof.
  intro H.
  destruct (proj1 (H "_" plain_session plain_entity)) as [_ Hm].
  - simpl. now left.
  - discriminate Hm.
Qed.

(** C10, amended. For a query without [%] and [_], [search] returns the
    rows of the entity table, in table order, in which the query occurs,
    letter case apart, in the name, the entity type, the description or the
    content of an observation of the entity; it executes one statement and
    leaves the database as it is. *)
Theorem search_returns_mentions (q : string) (s : Session) :
  has_wildcard q = false ->
  fst (search q s) = filter (mentions q (db s)) (entity_table (db s)) /\
  db (snd (search q s)) = db s /\
  forall e, In e (fst (search q s)) <->
            In e (entity_table (db s)) /\ mentions q (db s) e = true.
Proof.
  intro Hq.
  assert (Hf : fst (search q s)
               = filter (mentions q (db s)) (entity_table (db s))).
  { unfold search, execute_query, run. cbn [fst].
    apply filter_ext. intro e. now apply search_where_mentions. }
  split; [exact Hf|]. split; [reflexivity|].
  intro e. rewrite Hf. apply filter_In.
Qed.

(** A session with two entities; the word [sync] occurs in an observation
    of the first one only. *)
Definition demo_session : Session :=
  {| db := {| entity_table :=
                [ {| id := 1; name := "Architecture"; entity_type := "design";
                     description := None; path_id := "design/architecture" |};
                  {| id := 2; name := "Meeting"; entity_type := "note";
                     description := Some "weekly"; path_id := "note/meeting" |} ];
              observation_table :=
                [ {| obs_id := 1; obs_entity_id := 1;
                     obs_content := "Two-pass SYNC protocol" |} ] |};
     executed := [] |}.

Lemma search_returns_mentions_witness :
  has_wildcard "sync" = false /\
  map id (fst (search "sync" demo_session)) = [1%Z].
Proof.
  split; [reflexivity|].
  rewrite (proj1 (search_returns_mentions "sync" demo_session eq_refl)).
  reflexivity.
Defined.

End EntityRepositoryFacts.

(* ===================================================================== *)
(** ** mcp/tools/build_context.py *)
(* ===================================================================== *)

Module BuildContext.

(** The query parameters of the request to the memory endpoint. *)
Record Params : Type := mkParams
  { depth : option Z;
    timeframe : option string;
    page : Z;
    page_size : Z;
    max_related : Z }.

Record Request : Type := mkRequest
  { path : string;
    params : Params }.

(** The keyword arguments of one call of the tool: [None] for an argument
    the caller leaves out. [depth] and [timeframe] are [Optional], so a
    caller may also pass Python's [None]. *)
Record Call : Type := mkCall
  { arg_depth : option (option Z);
    arg_timeframe : option (option string);
    arg_page : option Z;
    arg_page_size : option Z;
    arg_max_related : option Z }.

(** A call that passes the URL only. *)
Definition url_only : Call :=
  {| arg_depth := None; arg_timeframe := None; arg_page := None;
     arg_page_size := None; arg_max_related := None |}.

(** The value of a parameter: the argument, or the default of the
    signature. *)
Definition or_default {A : Type} (default : A) (arg : option A) : A :=
  match arg with
  | Some a => a
  | None => default
  end.

Section Tool.

(** [schemas.memory] and the HTTP client. *)
Variable normalize_memory_url : string -> string.
Variable memory_url_path : string -> string.
Variable GraphContext : Type.
Variable call_get : Request -> GraphContext.

(** The request [build_context] sends. *)
Definition build_context_request (url : string) (c : Call) : Request :=
  let depth := or_default (Some 1%Z) (arg_depth c) in
  let timeframe := or_default (Some "7d") (arg_timeframe c) in
  let page := or_default 1%Z (arg_page c) in
  let page_size := or_default 10%Z (arg_page_size c) in
  let max_related := or_default 10%Z (arg_max_related c) in
  let url := normalize_memory_url url in
  {| path := ("/memory/" ++ memory_url_path url)%string;
     params := {| depth := depth; timeframe := timeframe; page := page;
                  page_size := page_size; max_related := max_related |} |}.

(** [build_context] *)
Definition build_context (url : string) (c : Call) : GraphContext :=
  call_get (build_context_request url c).

End Tool.

End BuildContext.

(* ===================================================================== *)
(** ** Facts about the context tool *)
(* ===================================================================== *)

Module BuildContextFacts.

Import BuildContext.

(** C7, as stated: a call without [depth] would ask for depth 2, and no
    call would ask for more than 3. The signature's default is 1, and an
    explicit depth is sent as it is. *)
Lemma build_context_default_depth_not_two :
  ~ (forall (normalize_memory_url memory_url_path : string -> string)
            (url : string) (c : Call),
       (arg_depth c = None ->
        depth (params (build_context_request normalize_memory_url
                         memory_url_path url c)) = Some 2%Z) /\
       (forall d,
          depth (params (build_context_request normalize_memory_url
                           memory_url_path url c)) = Some d -> (d <= 3)%Z)).
Proof.
  intro H.
  destruct (H (fun u => u) (fun u => u) "memory://specs/search" url_only)
    as [Hd _].
  specialize (Hd eq_refl). discriminate Hd.
Qed.

(** C7, amended. The depth [build_context] asks the memory endpoint for is
    the caller's [depth] argument, unchanged, and 1 when the caller gives
    none; the tool puts no upper bound on it. *)
Theorem build_context_depth
    (normalize_memory_url memory_url_path : string -> string)
    (url : string) (c : Call) :
  depth (params (build_context_request normalize_memory_url
                   memory_url_path url c))
  = match arg_depth c with
    | None => Some 1%Z
    | Some d => d
    end.
Proof. destruct c as [[d|] ? ? ? ?]; reflexivity. Qed.

(** A depth of 4 goes out as 4. *)
Example build_context_depth_four :
  depth (params (build_context_request (fun u => u) (fun u => u)
                   "memory://specs/search"
                   {| arg_depth := Some (Some 4%Z); arg_timeframe := None;
                      arg_page := None; arg_page_size := None;
                      arg_max_related := None |}))
  = Some 4%Z.
Proof. reflexivity. Qed.

End BuildContextFacts.

(* ===================================================================== *)
(** ** sync/sync_service.py *)
(* ===================================================================== *)

Module SyncService.

(** The exceptions that can leave [sync]. *)
Inductive Exception : Type :=
  | SyncError (path : string)
  | KeyError (key : string)
  | ServiceError (message : string).

(** [SyncReport]: the paths in the order the loops of [sync] visit them,
    and the checksum of every scanned file. *)
Record SyncReport : Type := mkSyncReport
  { new : list string;
    modified : list string;
    deleted : list string;
    checksums : list (string * string) }.

(** [SyncReport.total_changes] *)
Definition total_changes (r : SyncReport) : nat :=
  List.length (new r) + List.length (modified r) + List.length (deleted r).

(** [directory / file_path] *)
Definition path_join (directory file_path : string) : string :=
  (directory ++ "/" ++ file_path)%string.

(** A Python [dict] with string keys, in insertion order. *)
Section Dict.

Context {V : Type}.

(** [d[k]], [None] for a missing key. *)
Fixpoint dict_get (d : list (string * V)) (k : string) : option V :=
  match d with
  | [] => None
  | (k', v) :: d' => if String.eqb k k' then Some v else dict_get d' k
  end.

(** [d[k] = v]: a key already present keeps its place. *)
Fixpoint dict_set (k : string) (v : V) (d : list (string * V)) : list (string * V) :=
  match d with
  | [] => [(k, v)]
  | (k', v') :: d' =>
      if String.eqb k k' then (k, v) :: d' else (k', v') :: dict_set k v d'
  end.

End Dict.

Section Sync.

(** Everything a sync cycle can change: the database, the search index
    and the files. *)
Variable World : Type.
Variable EntityMarkdown : Type.
Variable Entity : Type.

(** A computation that may change the world and may raise. What it did
    before raising stays done: [sync] opens no transaction around its
    calls. *)
Definition M (A : Type) : Type := World -> (Exception + A) * World.

Definition ret {A : Type} (a : A) : M A := fun w => (inr a, w).

Definition raise {A : Type} (e : Exception) : M A := fun w => (inl e, w).

Definition bind {A B : Type} (m : M A) (f : A -> M B) : M B :=
  fun w =>
    match m w with
    | (inr a, w') => f a w'
    | (inl e, w') => (inl e, w')
    end.

(** A call that only reads the world. *)
Definition reading {A : Type} (f : World -> Exception + A) : M A :=
  fun w => (f w, w).

Notation "x <- m ;; k" := (bind m (fun x => k))
  (at level 61, m at next level, right associativity).

(** [for x in l: body(x)] *)
Fixpoint for_each {A : Type} (l : list A) (body : A -> M unit) : M unit :=
  match l with
  | [] => ret tt
  | x :: l' => _ <- body x ;; for_each l' body
  end.

(** The collaborators of [SyncService]: [scanner], [knowledge_parser],
    [knowledge_sync_service] and [search_service]. The scanner and the
    parser read; the others write. *)
Variable find_knowledge_changes : string -> World -> Exception + SyncReport.
Variable parse_file : string -> World -> Exception + EntityMarkdown.
Variable delete_entity_by_file_path : string -> M unit.
Variable create_entity_from_markdown : string -> EntityMarkdown -> M Entity.
Variable update_entity_and_observations : string -> EntityMarkdown -> M Entity.
Variable update_entity_relations : EntityMarkdown -> string -> M Entity.
Variable index_entity : Entity -> M unit.
(** [entity_markdown.frontmatter.id] *)
Variable frontmatter_id : EntityMarkdown -> string.

(** The loop that fills [parsed_entities]. *)
Fixpoint parse_files (directory : string) (paths : list string)
    (parsed_entities : list (string * EntityMarkdown))
  : M (list (string * EntityMarkdown)) :=
  match paths with
  | [] => ret parsed_entities
  | file_path :: paths' =>
      entity_markdown <- reading (parse_file (path_join directory file_path)) ;;
      parse_files directory paths' (dict_set file_path entity_markdown parsed_entities)
  end.

(** The body of the first pass. *)
Definition first_pass (changes : SyncReport) (item : string * EntityMarkdown)
  : M unit :=
  let (file_path, entity_markdown) := item in
  if existsb (String.eqb file_path) (new changes)
  then _ <- create_entity_from_markdown file_path entity_markdown ;; ret tt
  else
    let permalink := frontmatter_id entity_markdown in
    _ <- update_entity_and_observations permalink entity_markdown ;; ret tt.

(** The body of the second pass. *)
Definition second_pass (changes : SyncReport) (item : string * EntityMarkdown)
  : M unit :=
  let (file_path, entity_markdown) := item in
  match dict_get (checksums changes) file_path with
  | None => raise (KeyError file_path)
  | Some checksum =>
      entity <- update_entity_relations entity_markdown checksum ;;
      index_entity entity
  end.

(** [SyncService.sync] *)
Definition sync (directory : string) : M SyncReport :=
  changes <- reading (find_knowledge_changes directory) ;;
  _ <- for_each (deleted changes) delete_entity_by_file_path ;;
  parsed_entities <-
    parse_files directory (new changes ++ modified changes) [] ;;
  _ <- for_each parsed_entities (first_pass changes) ;;
  _ <- for_each parsed_entities (second_pass changes) ;;
  ret changes.

(** *** The collaborators' contract

    The scanner, the parser and the entity services are not part of
    [sync_service.py]; [sync] is verified against what the rest of the
    system promises about them, stated on two observations of the world:
    the file tree, and the checksum column of the entity stored for a file
    path. *)

Variable Files : Type.
(** The file tree under the synced directory. *)
Variable files : World -> Files.
(** The checksum of the visible file at a relative path. *)
Variable on_disk : Files -> string -> option string.
(** The checksum of the entity stored for a file path: [None] when there
    is no such entity, [Some None] for a null checksum. *)
Variable in_store : World -> string -> option (option string).
Variable directory : string.

(** The change detector: new, modified and deleted paths, and the scanned
    checksums. *)
Definition scan_contract : Prop :=
  forall w r,
    find_knowledge_changes directory w = inr r ->
    (forall p, In p (new r) <->
               on_disk (files w) p <> None /\ in_store w p = None) /\
    (forall p, In p (modified r) <->
               exists c, on_disk (files w) p = Some c /\
                         in_store w p <> None /\
                         in_store w p <> Some (Some c)) /\
    (forall p, In p (deleted r) <->
               on_disk (files w) p = None /\ in_store w p <> None) /\
    (forall p c, on_disk (files w) p = Some c ->
                 dict_get (checksums r) p = Some c).


(** [delete_entity_by_file_path] removes the entity of that path. *)
Definition delete_contract : Prop :=
  forall p w w' u,
    delete_entity_by_file_path p w = (inr u, w') ->
    files w' = files w /\
    in_store w' p = None /\
    forall q, q <> p -> in_store w' q = in_store w q.

(** [create_entity_from_markdown] touches the entity of its path only. *)
Definition create_contract : Prop :=
  forall p md w w' e,
    create_entity_from_markdown p md w = (inr e, w') ->
    files w' = files w /\
    forall q, q <> p -> in_store w' q = in_store w q.

(** [update_entity_and_observations], given the markdown parsed from a
    file, touches the entity of that file only. *)
Definition update_contract : Prop :=
  forall w0 p md,
    parse_file (path_join directory p) w0 = inr md ->
    forall w w' e,
      update_entity_and_observations (frontmatter_id md) md w = (inr e, w') ->
      files w' = files w /\
      forall q, q <> p -> in_store w' q = in_store w q.

(** [update_entity_relations], given the markdown parsed from a file,
    commits the checksum on the entity of that file and touches no other
    entity's checksum. *)
Definition relations_contract : Prop :=
  forall w0 p md,
    parse_file (path_join directory p) w0 = inr md ->
    forall c w w' e,
      update_entity_relations md c w = (inr e, w') ->
      files w' = files w /\
      in_store w' p = Some (Some c) /\
      forall q, q <> p -> in_store w' q = in_store w q.

(** [index_entity] writes the search index only. *)
Definition index_contract : Prop :=
  forall e w w' u,
    index_entity e w = (inr u, w') ->
    files w' = files w /\ forall q, in_store w' q = in_store w q.

(** The store mirrors the tree: every visible file has an entity with the
    file's checksum, and there is no other entity. *)
Definition consistent (w : World) : Prop :=
  forall p, in_store w p = option_map Some (on_disk (files w) p).

(** *** Dictionaries *)

Lemma dict_set_in {V : Type} (k : string) (v : V) (d : list (string * V))
    (p : string) (x : V) :
  In (p, x) (dict_set k v d) -> (p = k /\ x = v) \/ In (p, x) d.
Proof.
  induction d as [|[k' v'] d IH]; simpl.
  - intros [H|[]]. inversion H. now left.
  - destruct (String.eqb k k').
    + intros [H|H]; [inversion H; now left|right; now right].
    + intros [H|H]; [right; now left|].
      destruct (IH H) as [?|?]; [now left|right; now right].
Qed.

Lemma dict_set_keys {V : Type} (k : string) (v : V) (d : list (string * V))
    (p : string) :
  In p (map fst (dict_set k v d)) <-> p = k \/ In p (map fst d).
Proof.
  induction d as [|[k' v'] d IH]; simpl.
  - intuition.
  - destruct (String.eqb k k') eqn:E; simpl.
    + apply String.eqb_eq in E. subst k'. intuition.
    + rewrite IH. intuition.
Qed.

Lemma dict_set_nodup {V : Type} (k : string) (v : V) (d : list (string * V)) :
  NoDup (map fst d) -> NoDup (map fst (dict_set k v d)).
Proof.
  induction d as [|[k' v'] d IH]; simpl; intro H.
  - constructor; [intros []|constructor].
  - destruct (String.eqb k k') eqn:E; simpl.
    + apply String.eqb_eq in E. now subst k'.
    + inversion H as [|? ? Hn Hd]; subst. constructor; [|now apply IH].
      rewrite dict_set_keys. intros [->|Hin]; [|now apply Hn].
      now rewrite String.eqb_refl in E.
Qed.

(** *** Loops *)

(** A loop that ends without raising has run its body on every element in
    turn; [I done] holds once the elements [done] are behind. *)
Lemma for_each_invariant {A : Type} (body : A -> M unit)
    (I : list A -> World -> Prop) (l done : list A) (w w' : World) (u : unit) :
  for_each l body w = (inr u, w') ->
  I done w ->
  (forall done' x rest w1 w2 u',
     done ++ l = done' ++ x :: rest ->
     I done' w1 -> body x w1 = (inr u', w2) -> I (done' ++ [x]) w2) ->
  I (done ++ l) w'.
Proof.
  revert done w. induction l as [|x l IH]; intros done w Hrun Hdone Hstep.
  - simpl in Hrun. unfold ret in Hrun. inversion Hrun; subst.
    now rewrite app_nil_r.
  - simpl in Hrun. unfold bind in Hrun.
    destruct (body x w) as [[e|u1] w1] eqn:Hx; [discriminate Hrun|].
    replace (done ++ x :: l) with ((done ++ [x]) ++ l)
      by (now rewrite <- app_assoc).
    apply (IH (done ++ [x]) w1 Hrun).
    + eapply Hstep; [reflexivity|exact Hdone|exact Hx].
    + intros done' y rest w2 w3 u' Heq. apply (Hstep done' y rest).
      now rewrite <- Heq, <- app_assoc.
Qed.

(** A loop over nothing does nothing. *)
Lemma for_each_nil {A : Type} (body : A -> M unit) (w : World) :
  for_each [] body w = (inr tt, w).
Proof. reflexivity. Qed.

(** The parsing loop leaves the world alone; its dictionary has one entry
    for each path, holding what the parser returned for it. *)
Lemma parse_files_result (paths : list string)
    (d0 d : list (string * EntityMarkdown)) (w w' : World) :
  parse_files directory paths d0 w = (inr d, w') ->
  NoDup (map fst d0) ->
  (forall p md, In (p, md) d0 -> parse_file (path_join directory p) w = inr md) ->
  w' = w /\
  NoDup (map fst d) /\
  (forall p md, In (p, md) d -> parse_file (path_join directory p) w = inr md) /\
  (forall p, In p (map fst d) <-> In p (map fst d0) \/ In p paths).
Proof.
  revert d0. induction paths as [|x paths IH]; intros d0 Hrun Hnd Hparsed.
  - simpl in Hrun. unfold ret in Hrun. inversion Hrun; subst.
    split; [reflexivity|]. split; [assumption|]. split; [assumption|].
    intro p. simpl. tauto.
  - simpl in Hrun. unfold bind, reading in Hrun.
    destruct (parse_file (path_join directory x) w) as [e|md] eqn:Hx;
      [discriminate Hrun|].
    destruct (IH _ Hrun) as (Hw & Hnd' & Hparsed' & Hkeys).
    + now apply dict_set_nodup.
    + intros p md' Hin. apply dict_set_in in Hin.
      destruct Hin as [[-> ->]|Hin]; [exact Hx|now apply Hparsed].
    + split; [assumption|]. split; [assumption|]. split; [assumption|].
      intro p. rewrite Hkeys, dict_set_keys. simpl.
      split; intros [H|H]; auto; destruct H; auto.
Qed.

(** An entry of a dictionary stands after no entry with the same key. *)
Lemma nodup_keys_prefix {V : Type} (done rest : list (string * V))
    (p : string) (x : V) :
  NoDup (map fst (done ++ (p, x) :: rest)) -> ~ In p (map fst done).
Proof.
  rewrite map_app. simpl. intro H.
  apply NoDup_remove_2 in H. intro Hin. apply H.
  apply in_or_app. now left.
Qed.

(** *** The three writing loops *)

(** The deletion loop removes the entities of the deleted paths and no
    other. *)
Lemma deletions_outcome (paths : list string) (w w' : World) (u : unit) :
  delete_contract ->
  for_each paths delete_entity_by_file_path w = (inr u, w') ->
  files w' = files w /\
  (forall p, In p paths -> in_store w' p = None) /\
  (forall p, ~ In p paths -> in_store w' p = in_store w p).
Proof.
  intros Hdel Hrun.
  apply (for_each_invariant delete_entity_by_file_path
           (fun done w1 =>
              files w1 = files w /\
              (forall p, In p done -> in_store w1 p = None) /\
              (forall p, ~ In p done -> in_store w1 p = in_store w p))
           paths [] w w' u Hrun).
  - split; [reflexivity|]. split; [intros p []|reflexivity].
  - intros done x rest w1 w2 u' _ (Hf & Hin & Hout) Hx.
    destruct (Hdel x w1 w2 u' Hx) as (Hf' & Hx' & Hother).
    split; [congruence|]. split.
    + intros p Hp. destruct (string_dec p x) as [->|Hne]; [exact Hx'|].
      rewrite (Hother p Hne). apply Hin.
      apply in_app_or in Hp. destruct Hp as [Hp|[Hp|[]]]; [exact Hp|].
      now elim Hne.
    + intros p Hp.
      assert (Hne : p <> x).
      { intros ->. apply Hp. apply in_or_app. right. now left. }
      rewrite (Hother p Hne). apply Hout.
      intro Hd. apply Hp. apply in_or_app. now left.
Qed.

(** The first pass touches the entities of the parsed files only. *)
Lemma first_pass_outcome (changes : SyncReport)
    (parsed : list (string * EntityMarkdown)) (w0 w w' : World) (u : unit) :
  create_contract -> update_contract ->
  (forall p md, In (p, md) parsed ->
                parse_file (path_join directory p) w0 = inr md) ->
  for_each parsed (first_pass changes) w = (inr u, w') ->
  files w' = files w /\
  (forall q, ~ In q (map fst parsed) -> in_store w' q = in_store w q).
Proof.
  intros Hcreate Hupdate Hparsed Hrun.
  apply (for_each_invariant (first_pass changes)
           (fun done w1 =>
              files w1 = files w /\
              (forall q, ~ In q (map fst done) -> in_store w1 q = in_store w q))
           parsed [] w w' u Hrun).
  - split; reflexivity.
  - intros done [p md] rest w1 w2 u' Heq (Hf & Hout) Hx.
    assert (Hin : In (p, md) parsed).
    { simpl in Heq. rewrite Heq. apply in_or_app. right. now left. }
    assert (Hstep : files w2 = files w1 /\
                    forall q, q <> p -> in_store w2 q = in_store w1 q).
    { unfold first_pass, bind, ret in Hx.
      destruct (existsb (String.eqb p) (new changes)).
      - destruct (create_entity_from_markdown p md w1) as [[e|e] w1'] eqn:Hc;
          [discriminate Hx|].
        inversion Hx; subst. exact (Hcreate p md w1 w2 e Hc).
      - destruct (update_entity_and_observations (frontmatter_id md) md w1)
          as [[e|e] w1'] eqn:Hc; [discriminate Hx|].
        inversion Hx; subst.
        exact (Hupdate w0 p md (Hparsed p md Hin) w1 w2 e Hc). }
    destruct Hstep as (Hf' & Hother).
    split; [congruence|].
    intros q Hq. rewrite map_app in Hq. simpl in Hq.
    assert (Hne : q <> p).
    { intros ->. apply Hq. apply in_or_app. right. now left. }
    rewrite (Hother q Hne). apply Hout.
    intro Hd. apply Hq. apply in_or_app. now left.
Qed.

(** The second pass commits, for every parsed file, the checksum the
    report holds for it, and touches no other entity. *)
Lemma second_pass_outcome (changes : SyncReport)
    (parsed : list (string * EntityMarkdown)) (w0 w w' : World) (u : unit) :
  relations_contract -> index_contract ->
  NoDup (map fst parsed) ->
  (forall p md, In (p, md) parsed ->
                parse_file (path_join directory p) w0 = inr md) ->
  for_each parsed (second_pass changes) w = (inr u, w') ->
  files w' = files w /\
  (forall p, In p (map fst parsed) ->
             exists c, dict_get (checksums changes) p = Some c /\
                       in_store w' p = Some (Some c)) /\
  (forall q, ~ In q (map fst parsed) -> in_store w' q = in_store w q).
Proof.
  intros Hrel Hindex Hnd Hparsed Hrun.
  apply (for_each_invariant (second_pass changes)
           (fun done w1 =>
              files w1 = files w /\
              (forall p, In p (map fst done) ->
                         exists c, dict_get (checksums changes) p = Some c /\
                                   in_store w1 p = Some (Some c)) /\
              (forall q, ~ In q (map fst done) -> in_store w1 q = in_store w q))
           parsed [] w w' u Hrun).
  - split; [reflexivity|]. split; [intros p []|reflexivity].
  - intros done [p md] rest w1 w2 u' Heq (Hf & Hin & Hout) Hx.
    simpl in Heq.
    assert (Hmem : In (p, md) parsed).
    { rewrite Heq. apply in_or_app. right. now left. }
    assert (Hfresh : ~ In p (map fst done)).
    { apply (nodup_keys_prefix done rest p md). now rewrite <- Heq. }
    unfold second_pass, bind, raise in Hx.
    destruct (dict_get (checksums changes) p) as [c|] eqn:Hc;
      [|discriminate Hx].
    destruct (update_entity_relations md c w1) as [[e|e] w1'] eqn:Hr;
      [discriminate Hx|].
    destruct (Hrel w0 p md (Hparsed p md Hmem) c w1 w1' e Hr)
      as (Hf1 & Hp1 & Hother1).
    destruct (Hindex e w1' w2 u' Hx) as (Hf2 & Hsame2).
    split; [congruence|]. split.
    + intros q Hq. rewrite map_app in Hq. simpl in Hq.
      rewrite Hsame2.
      destruct (string_dec q p) as [->|Hne].
      * exists c. split; [exact Hc|exact Hp1].
      * rewrite (Hother1 q Hne). apply Hin.
        apply in_app_or in Hq. destruct Hq as [Hq|[Hq|[]]]; [exact Hq|].
        now elim Hne.
    + intros q Hq. rewrite map_app in Hq. simpl in Hq.
      assert (Hne : q <> p).
      { intros ->. apply Hq. apply in_or_app. right. now left. }
      rewrite Hsame2, (Hother1 q Hne). apply Hout.
      intro Hd. apply Hq. apply in_or_app. now left.
Qed.

(** *** One cycle *)

(** What a cycle that returns leaves behind: the files as they were, the
    scanned checksum on the entity of every new or modified path, no
    entity for a deleted path, and every other entity as it was. *)
Lemma sync_outcome (w w' : World) (r : SyncReport) :
  delete_contract -> create_contract -> update_contract ->
  relations_contract -> index_contract ->
  sync directory w = (inr r, w') ->
  find_knowledge_changes directory w = inr r /\
  files w' = files w /\
  (forall p, In p (new r ++ modified r) ->
             exists c, dict_get (checksums r) p = Some c /\
                       in_store w' p = Some (Some c)) /\
  (forall p, ~ In p (new r ++ modified r) -> In p (deleted r) ->
             in_store w' p = None) /\
  (forall p, ~ In p (new r ++ modified r) -> ~ In p (deleted r) ->
             in_store w' p = in_store w p).
Proof.
  intros Hdel Hcreate Hupdate Hrel Hindex Hrun.
  unfold sync, bind, reading, ret in Hrun.
  destruct (find_knowledge_changes directory w) as [e|changes] eqn:Hscan;
    [discriminate Hrun|].
  destruct (for_each (deleted changes) delete_entity_by_file_path w)
    as [[e|u1] w1] eqn:H1; [discriminate Hrun|].
  destruct (parse_files directory (new changes ++ modified changes) [] w1)
    as [[e|parsed] w1'] eqn:H2; [discriminate Hrun|].
  destruct (for_each parsed (first_pass changes) w1')
    as [[e|u2] w2] eqn:H3; [discriminate Hrun|].
  destruct (for_each parsed (second_pass changes) w2)
    as [[e|u3] w3] eqn:H4; [discriminate Hrun|].
  injection Hrun as <- <-.
  destruct (deletions_outcome _ _ _ _ Hdel H1) as (Hf1 & Hgone & Hkept).
  destruct (parse_files_result _ _ _ _ _ H2) as (-> & Hnd & Hparsed & Hkeys);
    [constructor|intros p md []|].
  destruct (first_pass_outcome _ _ w1 _ _ _ Hcreate Hupdate Hparsed H3)
    as (Hf2 & Hout2).
  destruct (second_pass_outcome _ _ w1 _ _ _ Hrel Hindex Hnd Hparsed H4)
    as (Hf3 & Hin3 & Hout3).
  assert (Hk : forall p, In p (map fst parsed) <->
                         In p (new changes ++ modified changes)).
  { intro p. rewrite Hkeys. simpl. tauto. }
  split; [reflexivity|]. split; [congruence|]. split; [|split].
  - intros p Hp. apply Hin3. now apply Hk.
  - intros p Hp Hd.
    rewrite Hout3, Hout2 by (now rewrite Hk). now apply Hgone.
  - intros p Hp Hd.
    rewrite Hout3, Hout2 by (now rewrite Hk). now apply Hkept.
Qed.

(** After a cycle that returns, the store mirrors the tree. *)
Lemma sync_consistent (w w' : World) (r : SyncReport) :
  scan_contract ->
  delete_contract -> create_contract -> update_contract ->
  relations_contract -> index_contract ->
  sync directory w = (inr r, w') ->
  files w' = files w /\ consistent w'.
Proof.
  intros Hscan Hdel Hcreate Hupdate Hrel Hindex Hrun.
  destruct (sync_outcome w w' r Hdel Hcreate Hupdate Hrel Hindex Hrun)
    as (Hr & Hf & Hchanged & Hgone & Hkept).
  destruct (Hscan w r Hr) as (Hnew & Hmod & Hdeleted & Hsums).
  split; [exact Hf|].
  intro p. rewrite Hf.
  assert (Hchg : In p (new r ++ modified r) ->
                 exists c, on_disk (files w) p = Some c).
  { intro Hp. apply in_app_or in Hp. destruct Hp as [Hp|Hp].
    - apply Hnew in Hp. destruct Hp as [Hp _].
      destruct (on_disk (files w) p) as [c|]; [now exists c|now elim Hp].
    - apply Hmod in Hp. destruct Hp as (c & Hc & _). now exists c. }
  destruct (in_dec string_dec p (new r ++ modified r)) as [Hp|Hp].
  - destruct (Hchg Hp) as (c & Hc).
    destruct (Hchanged p Hp) as (c' & Hc' & Hstored).
    rewrite (Hsums p c Hc) in Hc'. inversion Hc'; subst c'.
    now rewrite Hstored, Hc.
  - assert (Hnn : ~ In p (new r)).
    { intro H. apply Hp. apply in_or_app. now left. }
    assert (Hnm : ~ In p (modified r)).
    { intro H. apply Hp. apply in_or_app. now right. }
    destruct (in_dec string_dec p (deleted r)) as [Hd|Hd].
    + rewrite (Hgone p Hp Hd).
      apply Hdeleted in Hd. destruct Hd as [Hd _]. now rewrite Hd.
    + rewrite (Hkept p Hp Hd).
      destruct (on_disk (files w) p) as [c|] eqn:Hc; simpl.
      * destruct (in_store w p) as [[c'|]|] eqn:Hs.
        -- destruct (string_dec c' c) as [->|Hne]; [reflexivity|].
           elim Hnm. apply Hmod. exists c. rewrite Hs.
           split; [exact Hc|]. split; [discriminate|].
           intro H. inversion H. now elim Hne.
        -- elim Hnm. apply Hmod. exists c. rewrite Hs.
           split; [exact Hc|]. split; discriminate.
        -- elim Hnn. apply Hnew. split; [congruence|exact Hs].
      * destruct (in_store w p) as [v|] eqn:Hs; [|reflexivity].
        elim Hd. apply Hdeleted. split; [exact Hc|congruence].
Qed.




(** *** A cycle whose scan fails *)

(** The file at a relative path cannot be read. *)
Variable unreadable : Files -> string -> Prop.

(** An unreadable file makes the scan raise a [SyncError] that names
    one. *)
Definition scan_unreadable : Prop :=
  forall w p,
    unreadable (files w) p ->
    exists q, unreadable (files w) q /\
              find_knowledge_changes directory w = inl (SyncError q).

(** A scan that raises ends the cycle at once: [sync] raises the same
    exception and has written nothing. *)
Lemma sync_scan_raises (w : World) (e : Exception) :
  find_knowledge_changes directory w = inl e ->
  sync directory w = (inl e, w).
Proof.
  intro Hscan. unfold sync, bind, reading. now rewrite Hscan.
Qed.

(** C6. If a file of the tree cannot be read, and the scanner keeps its
    contract of raising a [SyncError] that names an unreadable file, then
    [sync] fails with that [SyncError] and the world, hence the entities,
    observations and relations of the store, is exactly as before the
    cycle. *)
Theorem sync_unreadable_file (w : World) (p : string) :
  scan_unreadable ->
  unreadable (files w) p ->
  exists q,
    unreadable (files w) q /\
    sync directory w = (inl (SyncError q), w).
Proof.
  intros Hscan Hp.
  destruct (Hscan w p Hp) as (q & Hq & Hraise).
  exists q. split; [exact Hq|now apply sync_scan_raises].
Qed.

End Sync.

End SyncService.

(* ===================================================================== *)
(** ** An in-memory implementation of the collaborators of [sync] *)
(* ===================================================================== *)

Module InMemory.

Import PyStr SyncService.

(** A file: whether it can be read, and the checksum of its bytes. *)
Record File : Type := mkFile
  { readable : bool;
    checksum : string }.

(** The tree, the [file_path -> checksum] column of the entity table, and
    the paths present in the search index. *)
Record World : Type := mkWorld
  { tree : list (string * File);
    table : list (string * option string);
    index : list string }.

(** A path with a component that starts with a dot. *)
Definition hidden (p : string) : bool :=
  existsb (String.prefix ".") (split_on "/"%char p).

(** The files the scanner walks. *)
Definition visible (t : list (string * File)) : list (string * File) :=
  filter (fun pf => negb (hidden (fst pf))) t.

Definition on_disk (t : list (string * File)) (p : string) : option string :=
  option_map checksum (dict_get (visible t) p).

Definition unreadable (t : list (string * File)) (p : string) : Prop :=
  exists f, In (p, f) (visible t) /\ readable f = false.

Definition in_store (w : World) (p : string) : option (option string) :=
  dict_get (table w) p.

(** [del d[k]], for every entry with that key. *)
Fixpoint dict_remove {V : Type} (k : string) (d : list (string * V))
  : list (string * V) :=
  match d with
  | [] => []
  | (k', v) :: d' =>
      if String.eqb k k' then dict_remove k d' else (k', v) :: dict_remove k d'
  end.

Section Services.

Variable directory : string.

(** The scan and the diff of sections 4.A and 4.B of the specification. *)
Definition find_knowledge_changes (dir : string) (w : World)
  : Exception + SyncReport :=
  let scanned := visible (tree w) in
  match find (fun pf => negb (readable (snd pf))) scanned with
  | Some (p, _) => inl (SyncError p)
  | None =>
      inr {| new :=
               filter (fun p => match in_store w p with
                                | None => true
                                | Some _ => false
                                end)
                      (map fst scanned);
             modified :=
               filter (fun p => match on_disk (tree w) p, in_store w p with
                                | Some c, Some (Some c') => negb (String.eqb c' c)
                                | Some c, Some None => true
                                | _, _ => false
                                end)
                      (map fst scanned);
             deleted :=
               filter (fun p => match on_disk (tree w) p with
                                | None => true
                                | Some _ => false
                                end)
                      (map fst (table w));
             checksums := map (fun pf => (fst pf, checksum (snd pf))) scanned |}
  end.

(** The markdown of a file is represented by the relative path of the
    file, which is also its frontmatter id. *)
Definition parse_file (full : string) (w : World) : Exception + string :=
  match find (fun pf => String.eqb (path_join directory (fst pf)) full)
             (visible (tree w)) with
  | Some (p, f) => if readable f then inr p else inl (SyncError p)
  | None => inl (SyncError full)
  end.

Definition frontmatter_id (md : string) : string := md.

Definition set_table (t : list (string * option string)) (w : World) : World :=
  {| tree := tree w; table := t; index := index w |}.

Definition delete_entity_by_file_path (p : string) : M World unit :=
  fun w =>
    (inr tt,
     {| tree := tree w;
        table := dict_remove p (table w);
        index := filter (fun q => negb (String.eqb q p)) (index w) |}).

Definition create_entity_from_markdown (p : string) (md : string)
  : M World string :=
  fun w => (inr p, set_table (dict_set p None (table w)) w).

Definition update_entity_and_observations (permalink : string) (md : string)
  : M World string :=
  fun w =>
    match in_store w permalink with
    | None => (inl (ServiceError "entity not found"), w)
    | Some _ => (inr permalink, set_table (dict_set permalink None (table w)) w)
    end.

Definition update_entity_relations (md : string) (c : string)
  : M World string :=
  fun w =>
    match in_store w md with
    | None => (inl (ServiceError "entity not found"), w)
    | Some _ => (inr md, set_table (dict_set md (Some c) (table w)) w)
    end.

Definition index_entity (e : string) : M World unit :=
  fun w =>
    (inr tt,
     {| tree := tree w;
        table := table w;
        index := e :: filter (fun q => negb (String.eqb q e)) (index w) |}).

(** [sync] over these collaborators. *)
Definition sync : M World SyncReport :=
  SyncService.sync World string string
    find_knowledge_changes parse_file delete_entity_by_file_path
    create_entity_from_markdown update_entity_and_observations
    update_entity_relations index_entity frontmatter_id directory.

End Services.

End InMemory.

(* ===================================================================== *)
(** ** The in-memory collaborators keep the contracts *)
(* ===================================================================== *)

Module InMemoryFacts.

Import PyStr SyncService InMemory.

Lemma dict_get_set {V : Type} (k : string) (v : V) (d : list (string * V))
    (q : string) :
  dict_get (dict_set k v d) q = if String.eqb q k then Some v else dict_get d q.
Proof.
  induction d as [|[k' v'] d IH]; simpl; [reflexivity|].
  destruct (String.eqb k k') eqn:E; simpl.
  - apply String.eqb_eq in E. subst k'.
    destruct (String.eqb q k); reflexivity.
  - rewrite IH. destruct (String.eqb q k) eqn:Eq; [|reflexivity].
    apply String.eqb_eq in Eq. subst q. now rewrite E.
Qed.

Lemma dict_get_remove {V : Type} (k : string) (d : list (string * V))
    (q : string) :
  dict_get (dict_remove k d) q = if String.eqb q k then None else dict_get d q.
Proof.
  induction d as [|[k' v'] d IH]; simpl.
  - now destruct (String.eqb q k).
  - destruct (String.eqb k k') eqn:E; simpl.
    + apply String.eqb_eq in E. subst k'. rewrite IH.
      destruct (String.eqb q k); reflexivity.
    + rewrite IH. destruct (String.eqb q k) eqn:Eq; [|reflexivity].
      apply String.eqb_eq in Eq. subst q. now rewrite E.
Qed.

Lemma dict_get_keys {V : Type} (d : list (string * V)) (p : string) :
  In p (map fst d) <-> dict_get d p <> None.
Proof.
  induction d as [|[k v] d IH]; simpl.
  - split; [intros []|intro H; now elim H].
  - destruct (String.eqb p k) eqn:E.
    + apply String.eqb_eq in E. subst k. split; [discriminate|now left].
    + apply String.eqb_neq in E. rewrite <- IH.
      split; [intros [H|H]; [now elim E|exact H]|now right].
Qed.

Lemma dict_get_map {V W : Type} (g : V -> W) (d : list (string * V))
    (p : string) :
  dict_get (map (fun kv => (fst kv, g (snd kv))) d) p
  = option_map g (dict_get d p).
Proof.
  induction d as [|[k v] d IH]; simpl; [reflexivity|].
  now destruct (String.eqb p k).
Qed.

Lemma append_cancel (x a b : string) :
  (x ++ a)%string = (x ++ b)%string -> a = b.
Proof.
  induction x as [|c x IH]; simpl; intro H; [exact H|].
  injection H as H. now apply IH.
Qed.

Lemma path_join_cancel (directory a b : string) :
  path_join directory a = path_join directory b -> a = b.
Proof.
  unfold path_join. intro H.
  apply append_cancel in H. now apply append_cancel in H.
Qed.

(** The markdown parsed from a file is the file's relative path. *)
Lemma parse_file_path (directory p md : string) (w : World) :
  parse_file directory (path_join directory p) w = inr md -> md = p.
Proof.
  unfold parse_file.
  destruct (find _ (visible (tree w))) as [[p' f]|] eqn:Hfind;
    [|discriminate].
  apply find_some in Hfind. destruct Hfind as [_ Heq].
  apply String.eqb_eq in Heq. simpl in Heq. apply path_join_cancel in Heq.
  destruct (readable f); [|discriminate]. intro H. injection H as <-.
  exact Heq.
Qed.

Section Contracts.

Variable directory : string.

Lemma scan_keeps_contract :
  scan_contract World find_knowledge_changes (list (string * File)) tree
    on_disk in_store directory.
Proof.
  intros w r H. unfold find_knowledge_changes in H.
  destruct (find _ (visible (tree w))) as [[p0 f0]|]; [discriminate H|].
  injection H as <-. cbn [new modified deleted checksums].
  assert (Hkeys : forall p, In p (map fst (visible (tree w))) <->
                            on_disk (tree w) p <> None).
  { intro p. rewrite dict_get_keys. unfold on_disk.
    destruct (dict_get (visible (tree w)) p); simpl;
      split; intro H; try discriminate; now elim H. }
  split; [|split; [|split]].
  - intro p. rewrite filter_In, Hkeys.
    destruct (in_store w p); split; intros [H1 H2];
      (split; [exact H1|]); try reflexivity; discriminate.
  - intro p. rewrite filter_In, Hkeys. split.
    + intros [_ H].
      destruct (on_disk (tree w) p) as [c|]; [|discriminate H].
      exists c. split; [reflexivity|].
      destruct (in_store w p) as [[c'|]|]; [| |discriminate H].
      * split; [discriminate|]. intro Heq. injection Heq as ->.
        now rewrite String.eqb_refl in H.
      * split; discriminate.
    + intros (c & Hc & Hs & Hne). rewrite Hc. split; [discriminate|].
      destruct (in_store w p) as [[c'|]|]; [|reflexivity|now elim Hs].
      destruct (String.eqb c' c) eqn:E; [|reflexivity].
      apply String.eqb_eq in E. subst c'. now elim Hne.
  - intro p. rewrite filter_In, dict_get_keys. unfold in_store.
    destruct (on_disk (tree w) p); split; intros [H1 H2];
      try discriminate; split; auto.
  - intros p c Hc. unfold on_disk in Hc.
    now rewrite (dict_get_map checksum).
Qed.


Lemma scan_keeps_unreadable :
  scan_unreadable World find_knowledge_changes (list (string * File)) tree
    directory unreadable.
Proof.
  intros w p (f & Hin & Hf). unfold find_knowledge_changes.
  destruct (find (fun pf => negb (readable (snd pf))) (visible (tree w)))
    as [[q g]|] eqn:Hfind.
  - apply find_some in Hfind. destruct Hfind as [Hq Hg]. simpl in Hg.
    exists q. split; [|reflexivity].
    exists g. split; [exact Hq|]. now destruct (readable g).
  - apply find_none with (x := (p, f)) in Hfind; [|exact Hin].
    simpl in Hfind. rewrite Hf in Hfind. discriminate Hfind.
Qed.

Lemma delete_keeps_contract :
  delete_contract World delete_entity_by_file_path (list (string * File))
    tree in_store.
Proof.
  intros p w w' u H. unfold delete_entity_by_file_path in H.
  injection H as _ <-. unfold in_store. cbn [tree table].
  split; [reflexivity|]. split.
  - now rewrite dict_get_remove, String.eqb_refl.
  - intros q Hq. rewrite dict_get_remove.
    apply String.eqb_neq in Hq. now rewrite Hq.
Qed.

Lemma create_keeps_contract :
  create_contract World string string create_entity_from_markdown
    (list (string * File)) tree in_store.
Proof.
  intros p md w w' e H. unfold create_entity_from_markdown in H.
  injection H as _ <-. unfold in_store. cbn [tree table set_table].
  split; [reflexivity|].
  intros q Hq. rewrite dict_get_set.
  apply String.eqb_neq in Hq. now rewrite Hq.
Qed.

Lemma update_keeps_contract :
  update_contract World string string (parse_file directory)
    update_entity_and_observations frontmatter_id (list (string * File))
    tree in_store directory.
Proof.
  intros w0 p md Hparse w w' e H.
  apply parse_file_path in Hparse. subst md.
  unfold update_entity_and_observations, frontmatter_id in H.
  destruct (in_store w p); [|discriminate H].
  injection H as _ <-. unfold in_store. cbn [tree table set_table].
  split; [reflexivity|].
  intros q Hq. rewrite dict_get_set.
  apply String.eqb_neq in Hq. now rewrite Hq.
Qed.

Lemma relations_keeps_contract :
  relations_contract World string string (parse_file directory)
    update_entity_relations (list (string * File)) tree in_store directory.
Proof.
  intros w0 p md Hparse c w w' e H.
  apply parse_file_path in Hparse. subst md.
  unfold update_entity_relations in H.
  destruct (in_store w p); [|discriminate H].
  injection H as _ <-. unfold in_store. cbn [tree table set_table].
  split; [reflexivity|]. split.
  - now rewrite dict_get_set, String.eqb_refl.
  - intros q Hq. rewrite dict_get_set.
    apply String.eqb_neq in Hq. now rewrite Hq.
Qed.

Lemma index_keeps_contract :
  index_contract World string index_entity (list (string * File)) tree
    in_store.
Proof.
  intros e w w' u H. unfold index_entity in H. injection H as _ <-.
  split; reflexivity.
Qed.

End Contracts.

(** A tree of two notes and a hidden file that cannot be read, beside a
    store that knows an older [a.md] and a note that is gone. *)
Definition stale_world : World :=
  {| tree := [ ("a.md", {| readable := true; checksum := "c1" |});
               ("b.md", {| readable := true; checksum := "c2" |});
               (".obsidian/app.json",
                {| readable := false; checksum := "c3" |}) ];
     table := [ ("a.md", Some "c0"); ("gone.md", Some "c9") ];
     index := [ "gone.md" ] |}.

Definition first_report : SyncReport :=
  {| new := ["b.md"];
     modified := ["a.md"];
     deleted := ["gone.md"];
     checksums := [("a.md", "c1"); ("b.md", "c2")] |}.

Definition synced_world : World :=
  {| tree := tree stale_world;
     table := [ ("a.md", Some "c1"); ("b.md", Some "c2") ];
     index := [ "a.md"; "b.md" ] |}.


(** The tree of [test_error_on_unreadable_file], beside a store that
    holds one entity. *)
Definition locked_world : World :=
  {| tree := [ ("bad.md", {| readable := false; checksum := "c1" |}) ];
     table := [ ("keep.md", Some "c2") ];
     index := [ "keep.md" ] |}.

Lemma sync_unreadable_file_witness :
  unreadable (tree locked_world) "bad.md" /\
  exists q,
    unreadable (tree locked_world) q /\
    sync "docs" locked_world = (inl (SyncError q), locked_world).
Proof.
  assert (H : unreadable (tree locked_world) "bad.md").
  { exists {| readable := false; checksum := "c1" |}.
    split; [now left|reflexivity]. }
  split; [exact H|].
  exact (sync_unreadable_file World string string
           find_knowledge_changes (parse_file "docs")
           delete_entity_by_file_path create_entity_from_markdown
           update_entity_and_observations update_entity_relations
           index_entity frontmatter_id
           (list (string * File)) tree "docs" unreadable
           locked_world "bad.md"
           (scan_keeps_unreadable "docs") H).
Defined.

End InMemoryFacts.

(* ===================================================================== *)
(** ** The entity store and the two passes over it *)
(* ===================================================================== *)

Module EntityStore.

Import PyStr.

(** An entity row, section 3.1 of the specification. *)
Record Entity : Type := mkEntity
  { id : Z;
    permalink : string;
    title : string;
    file_path : string;
    checksum : option string }.

(** A relation row, section 3.3. *)
Record Relation : Type := mkRelation
  { from_id : Z;
    to_id : option Z;
    to_name : string;
    relation_type : string }.

Record Store : Type := mkStore
  { entities : list Entity;
    relations : list Relation;
    next_id : Z }.

(** A relation line of a file: [- relation_type [[target]]]. *)
Record ParsedRelation : Type := mkParsedRelation
  { pr_type : string;
    pr_target : string }.

(** What the two passes read of a [ParsedEntity], section 4.C. *)
Record ParsedEntity : Type := mkParsedEntity
  { fm_permalink : option string;
    parsed_title : string;
    parsed_relations : list ParsedRelation }.

(** The text after the first dot of a reversed path, when the dot comes
    before any slash. *)
Fixpoint after_dot (r : string) : option string :=
  match r with
  | EmptyString => None
  | String c r' =>
      if Ascii.eqb c "."%char then Some r'
      else if Ascii.eqb c "/"%char then None
      else after_dot r'
  end.

Definition strip_extension (p : string) : string :=
  match after_dot (rev_string p) with
  | Some r => rev_string r
  | None => p
  end.

Fixpoint dashes (s : string) : string :=
  match s with
  | EmptyString => EmptyString
  | String c s' =>
      String (if Ascii.eqb c "_"%char || is_space c then "-"%char else c)
             (dashes s')
  end.

(** Modelled from the spec: the permalink derived from a path (section
    3.1), whose generator is not in the sources: the extension goes, the
    letters go to lower case, underscores and blanks become dashes and the
    slashes stay. *)
Definition generate_permalink (path : string) : string :=
  dashes (lower (strip_extension path)).

Definition find_by_permalink (s : Store) (p : string) : option Entity :=
  find (fun e => String.eqb (permalink e) p) (entities s).

Definition find_by_title (s : Store) (t : string) : option Entity :=
  find (fun e => String.eqb (title e) t) (entities s).

Definition find_by_file_path (s : Store) (p : string) : option Entity :=
  find (fun e => String.eqb (file_path e) p) (entities s).

(** Some entity has the permalink [p]. *)
Definition taken (s : Store) (p : string) : bool :=
  existsb (fun e => String.eqb (permalink e) p) (entities s).

(** [n] in decimal. *)
Definition decimal (n : nat) : string :=
  DecimalString.NilEmpty.string_of_uint (Nat.to_uint n).

(** [candidate-n] *)
Definition suffixed (candidate : string) (n : nat) : string :=
  (candidate ++ "-" ++ decimal n)%string.

(** [candidate-n], [candidate-(n+1)], ...: the first one that is free. The
    search is cut after [fuel] suffixes. *)
Fixpoint first_free (s : Store) (candidate : string) (n fuel : nat) : string :=
  match fuel with
  | O => suffixed candidate n
  | S fuel' =>
      if taken s (suffixed candidate n)
      then first_free s candidate (S n) fuel'
      else suffixed candidate n
  end.

(** Modelled from the spec: [allocate_unique_permalink] of section 4.D,
    which is not in the sources: the candidate if it is free, else
    [candidate-1], [candidate-2], ... A store of [k] entities cannot hold
    the candidate and all of its first [k] suffixes, so [k] steps are
    enough. *)
Definition allocate_unique_permalink (s : Store) (candidate : string) : string :=
  if taken s candidate
  then first_free s candidate 1 (List.length (entities s))
  else candidate.

(** Step 1 of phase 4: the frontmatter permalink, else the one derived
    from the path. *)
Definition candidate_permalink (path : string) (parsed : ParsedEntity)
  : string :=
  match fm_permalink parsed with
  | Some p => p
  | None => generate_permalink path
  end.

(** Modelled from the spec: step 2 of phase 4 (section 4.E), which is not
    in the sources. A new file gets the allocated permalink. A modified
    file gets its candidate when the candidate is free or its own; when the
    candidate belongs to another entity the file's entity keeps the
    permalink it has, which is what scenario 3 of section 8 and
    [test_sync_permalink_resolved_on_update] show ([two.md] edited to
    [permalink: one] is rewritten to [permalink: two]). *)
Definition resolve_permalink (s : Store) (path : string)
    (parsed : ParsedEntity) : string :=
  let candidate := candidate_permalink path parsed in
  match find_by_file_path s path with
  | None => allocate_unique_permalink s candidate
  | Some existing =>
      match find_by_permalink s candidate with
      | None => candidate
      | Some other =>
          if String.eqb (file_path other) path then candidate
          else permalink existing
      end
  end.

(** Modelled from the spec: [upsert_entity] of section 4.D, by file path,
    with the null checksum of step 3 of phase 4. *)
Definition upsert_entity (s : Store) (path : string) (p t : string) : Store :=
  match find_by_file_path s path with
  | None =>
      {| entities :=
           entities s ++
           [ {| id := next_id s; permalink := p; title := t;
                file_path := path; checksum := None |} ];
         relations := relations s;
         next_id := (next_id s + 1)%Z |}
  | Some _ =>
      {| entities :=
           map (fun e =>
                  if String.eqb (file_path e) path
                  then {| id := id e; permalink := p; title := t;
                          file_path := path; checksum := None |}
                  else e)
               (entities s);
         relations := relations s;
         next_id := next_id s |}
  end.

(** Phase 4 for one file. *)
Definition sync_entity (s : Store) (path : string) (parsed : ParsedEntity)
  : Store :=
  upsert_entity s path (resolve_permalink s path parsed) (parsed_title parsed).

(** Modelled from the spec: [delete_by_file_path] of section 4.D: the
    entity goes with its outgoing relations; an incoming relation loses its
    [to_id] and keeps its [to_name]. *)
Definition delete_by_file_path (s : Store) (path : string) : Store :=
  match find_by_file_path s path with
  | None => s
  | Some e =>
      {| entities :=
           filter (fun e' => negb (String.eqb (file_path e') path)) (entities s);
         relations :=
           map (fun r =>
                  match to_id r with
                  | Some t =>
                      if Z.eqb t (id e)
                      then {| from_id := from_id r; to_id := None;
                              to_name := to_name r;
                              relation_type := relation_type r |}
                      else r
                  | None => r
                  end)
               (filter (fun r => negb (Z.eqb (from_id r) (id e))) (relations s));
         next_id := next_id s |}
  end.

(** Two relations of one entity with the same type and target name. *)
Definition same_relation (a b : Relation) : bool :=
  String.eqb (relation_type a) (relation_type b)
  && String.eqb (to_name a) (to_name b).

(** The first relation of each [(relation_type, to_name)]. *)
Fixpoint dedupe (seen rels : list Relation) : list Relation :=
  match rels with
  | [] => []
  | r :: rels' =>
      if existsb (same_relation r) seen then dedupe seen rels'
      else r :: dedupe (r :: seen) rels'
  end.

(** Modelled from the spec: step 2 of phase 5, the binding of pending
    relations, which is not in the sources. A relation without [to_id]
    whose [to_name] is the permalink or the title of the entity [e] gets
    [to_id = e.id]. The name it carries from then on is the title of [e]:
    [test_forward_reference_resolution] asserts
    [to_name == target.title] after the binding. *)
Definition bind_pending (e : Entity) (r : Relation) : Relation :=
  match to_id r with
  | Some _ => r
  | None =>
      if String.eqb (to_name r) (permalink e) || String.eqb (to_name r) (title e)
      then {| from_id := from_id r; to_id := Some (id e);
              to_name := title e; relation_type := relation_type r |}
      else r
  end.

Section Passes.

(** The full-text search behind the fuzzy step of the link resolver. *)
Variable search : Store -> string -> list LinkResolver.SearchResult.

(** The link resolver over the store. *)
Definition resolve (s : Store) (link_text : string) : option Entity :=
  LinkResolver.resolve_link Entity (find_by_permalink s) (find_by_title s)
    (search s) link_text.

(** Step 1 of phase 5 for one parsed relation. *)
Definition write_relation (s : Store) (from : Entity) (pr : ParsedRelation)
  : Relation :=
  match resolve s (pr_target pr) with
  | Some target =>
      {| from_id := id from; to_id := Some (id target);
         to_name := pr_target pr; relation_type := pr_type pr |}
  | None =>
      {| from_id := id from; to_id := None;
         to_name := pr_target pr; relation_type := pr_type pr |}
  end.

(** Step 4 of phase 5. *)
Definition commit_checksum (path : string) (c : string) (e : Entity) : Entity :=
  if String.eqb (file_path e) path
  then {| id := id e; permalink := permalink e; title := title e;
          file_path := file_path e; checksum := Some c |}
  else e.

(** Modelled from the spec: phase 5 of section 4.E for one file: its
    relations are written, resolved where the resolver finds the target;
    the pending relations that name the file's entity are bound; the
    checksum is committed. *)
Definition sync_relations (s : Store) (path : string) (parsed : ParsedEntity)
    (c : string) : Store :=
  match find_by_file_path s path with
  | None => s
  | Some e =>
      let written :=
        dedupe [] (map (write_relation s e) (parsed_relations parsed)) in
      let kept :=
        filter (fun r => negb (Z.eqb (from_id r) (id e))) (relations s) in
      {| entities := map (commit_checksum path c) (entities s);
         relations := map (bind_pending e) (kept ++ written);
         next_id := next_id s |}
  end.

(** One changed file: its path, what the parser made of it, and its
    checksum. *)
Definition Change : Type := (string * ParsedEntity * string)%type.

(** Modelled from the spec: one cycle over a scanned difference:
    deletions (phase 1), entities (phase 4), then relations (phase 5). *)
Definition sync_cycle (s : Store) (deleted : list string)
    (changed : list Change) : Store :=
  let s1 := fold_left delete_by_file_path deleted s in
  let s2 := fold_left (fun s c => sync_entity s (fst (fst c)) (snd (fst c)))
                      changed s1 in
  fold_left (fun s c => sync_relations s (fst (fst c)) (snd (fst c)) (snd c))
            changed s2.

End Passes.

End EntityStore.

(* ===================================================================== *)
(** ** Facts about the entity store *)
(* ===================================================================== *)

Module EntityStoreFacts.

Import PyStr EntityStore.

(** No two entities share a permalink, and no two share a file path. *)
Definition unique (s : Store) : Prop :=
  NoDup (map permalink (entities s)) /\ NoDup (map file_path (entities s)).

(** *** Allocation *)

Lemma taken_in (s : Store) (p : string) :
  taken s p = true <-> In p (map permalink (entities s)).
Proof.
  unfold taken. rewrite existsb_exists, in_map_iff.
  split; intros (e & H1 & H2).
  - apply String.eqb_eq in H2. now exists e.
  - exists e. split; [exact H2|]. now apply String.eqb_eq.
Qed.

Lemma decimal_inj (n m : nat) : decimal n = decimal m -> n = m.
Proof.
  unfold decimal. intro H.
  apply DecimalNat.Unsigned.to_uint_inj.
  assert (Hs : Some (Nat.to_uint n) = Some (Nat.to_uint m)).
  { rewrite <- !DecimalString.NilEmpty.usu. now rewrite H. }
  now injection Hs.
Qed.

Lemma suffixed_inj (c : string) (n m : nat) :
  suffixed c n = suffixed c m -> n = m.
Proof.
  unfold suffixed. intro H.
  apply InMemoryFacts.append_cancel in H.
  apply (InMemoryFacts.append_cancel "-") in H.
  now apply decimal_inj.
Qed.

Lemma suffixed_longer (c : string) (n : nat) : suffixed c n <> c.
Proof.
  unfold suffixed. induction c as [|a c IH]; simpl.
  - discriminate.
  - intro H. injection H as H. now apply IH.
Qed.

Lemma nodup_map_injective {A B : Type} (f : A -> B) (l : list A) :
  (forall x y, f x = f y -> x = y) -> NoDup l -> NoDup (map f l).
Proof.
  intros Hinj Hnd. induction Hnd as [|a l Ha Hnd IH]; simpl; constructor.
  - rewrite in_map_iff. intros (x & Hx & Hin).
    apply Hinj in Hx. now subst x.
  - exact IH.
Qed.

Lemma forallb_false {A : Type} (f : A -> bool) (l : list A) :
  forallb f l = false -> exists x, In x l /\ f x = false.
Proof.
  induction l as [|a l IH]; simpl; [discriminate|].
  destruct (f a) eqn:E; simpl.
  - intro H. destruct (IH H) as (x & Hx & Hf). exists x. split; [now right|exact Hf].
  - intros _. exists a. split; [now left|exact E].
Qed.

(** A store that holds the candidate leaves one of the candidate's first
    suffixes free: there are not enough entities to hold them all. *)
Lemma some_suffix_free (s : Store) (c : string) :
  taken s c = true ->
  exists m, 1 <= m < 1 + List.length (entities s) /\
            taken s (suffixed c m) = false.
Proof.
  intro Hc.
  destruct (forallb (fun m => taken s (suffixed c m))
                    (seq 1 (List.length (entities s)))) eqn:Hall.
  - exfalso.
    rewrite forallb_forall in Hall.
    assert (Hnd : NoDup (c :: map (suffixed c)
                                  (seq 1 (List.length (entities s))))).
    { constructor.
      - rewrite in_map_iff. intros (m & Hm & _). now apply suffixed_longer in Hm.
      - apply nodup_map_injective; [|apply seq_NoDup].
        intros n m. apply suffixed_inj. }
    assert (Hincl : incl (c :: map (suffixed c)
                                   (seq 1 (List.length (entities s))))
                         (map permalink (entities s))).
    { intros p [<-|Hp]; [now apply taken_in|].
      apply in_map_iff in Hp. destruct Hp as (m & <- & Hm).
      apply taken_in. now apply Hall. }
    pose proof (NoDup_incl_length Hnd Hincl) as Hlen.
    simpl in Hlen. rewrite !length_map, length_seq in Hlen. lia.
  - apply forallb_false in Hall. destruct Hall as (m & Hm & Hfree).
    apply in_seq in Hm. exists m. split; [lia|exact Hfree].
Qed.

(** The search returns the first free suffix, when there is one within
    its reach. *)
Lemma first_free_least (s : Store) (c : string) (fuel n : nat) :
  (exists m, n <= m < n + fuel /\ taken s (suffixed c m) = false) ->
  exists N, n <= N < n + fuel /\
            first_free s c n fuel = suffixed c N /\
            taken s (suffixed c N) = false /\
            forall M, n <= M < N -> taken s (suffixed c M) = true.
Proof.
  revert n. induction fuel as [|fuel IH]; intros n (m & Hm & Hfree).
  - lia.
  - simpl. destruct (taken s (suffixed c n)) eqn:Hn.
    + destruct (IH (S n)) as (N & HN & Hr & Hf & Hleast).
      { exists m. split; [|exact Hfree].
        assert (m <> n) by (intros ->; congruence). lia. }
      exists N. split; [lia|]. split; [exact Hr|]. split; [exact Hf|].
      intros M HM. destruct (Nat.eq_dec M n) as [->|Hne]; [exact Hn|].
      apply Hleast. lia.
    + exists n. split; [lia|]. split; [reflexivity|]. split; [exact Hn|].
      intros M HM. lia.
Qed.

(** [allocate_unique_permalink]: the candidate when it is free, else the
    candidate with the least suffix [-N], [N >= 1], that is free. *)
Lemma allocate_unique_permalink_least (s : Store) (c : string) :
  if taken s c
  then exists N, 1 <= N /\
                 allocate_unique_permalink s c = suffixed c N /\
                 taken s (suffixed c N) = false /\
                 forall M, 1 <= M < N -> taken s (suffixed c M) = true
  else allocate_unique_permalink s c = c.
Proof.
  unfold allocate_unique_permalink.
  destruct (taken s c) eqn:Hc; [|reflexivity].
  destruct (first_free_least s c (List.length (entities s)) 1
              (some_suffix_free s c Hc)) as (N & HN & Hr & Hf & Hleast).
  exists N. split; [lia|]. now repeat split.
Qed.

Lemma allocate_unique_permalink_free (s : Store) (c : string) :
  taken s (allocate_unique_permalink s c) = false.
Proof.
  pose proof (allocate_unique_permalink_least s c) as H.
  destruct (taken s c) eqn:Hc.
  - destruct H as (N & _ & -> & Hf & _). exact Hf.
  - now rewrite H.
Qed.

(** *** Uniqueness *)

Lemma nodup_map_eq {A B : Type} (f : A -> B) (l : list A) (a b : A) :
  NoDup (map f l) -> In a l -> In b l -> f a = f b -> a = b.
Proof.
  induction l as [|x l IH]; intros Hnd Ha Hb Heq; [destruct Ha|].
  simpl in Hnd. inversion Hnd as [|? ? Hx Hl]; subst.
  destruct Ha as [->|Ha], Hb as [->|Hb].
  - reflexivity.
  - elim Hx. rewrite Heq. now apply in_map.
  - elim Hx. rewrite <- Heq. now apply in_map.
  - now apply IH.
Qed.

Lemma nodup_map_filter {A B : Type} (f : A -> B) (g : A -> bool) (l : list A) :
  NoDup (map f l) -> NoDup (map f (filter g l)).
Proof.
  induction l as [|x l IH]; simpl; intro Hnd; [constructor|].
  inversion Hnd as [|? ? Hx Hl]; subst.
  destruct (g x); simpl; [|now apply IH].
  constructor; [|now apply IH].
  rewrite in_map_iff. intros (y & Hy & Hin).
  apply filter_In in Hin. apply Hx. rewrite <- Hy. apply in_map, Hin.
Qed.

(** The row [upsert_entity] writes over the entity of [path]. *)
Definition rewritten (path p t : string) (e : Entity) : Entity :=
  if String.eqb (file_path e) path
  then {| id := id e; permalink := p; title := t;
          file_path := path; checksum := None |}
  else e.

Lemma rewritten_file_paths (path p t : string) (l : list Entity) :
  map file_path (map (rewritten path p t) l) = map file_path l.
Proof.
  induction l as [|e l IH]; simpl; [reflexivity|]. rewrite IH. f_equal.
  unfold rewritten. destruct (String.eqb (file_path e) path) eqn:E;
    [|reflexivity].
  apply String.eqb_eq in E. now rewrite E.
Qed.

Lemma rewritten_elsewhere (path p t : string) (l : list Entity) :
  ~ In path (map file_path l) -> map (rewritten path p t) l = l.
Proof.
  induction l as [|e l IH]; simpl; intro H; [reflexivity|].
  rewrite IH by tauto. f_equal. unfold rewritten.
  destruct (String.eqb (file_path e) path) eqn:E; [|reflexivity].
  apply String.eqb_eq in E. elim H. now left.
Qed.

(** Writing [p] over the permalink of the entity of [path] keeps the
    permalinks distinct when no other entity holds [p]. *)
Lemma rewritten_permalinks (path p t : string) (l : list Entity) :
  NoDup (map permalink l) -> NoDup (map file_path l) ->
  (forall e, In e l -> permalink e = p -> file_path e = path) ->
  NoDup (map permalink (map (rewritten path p t) l)).
Proof.
  induction l as [|e l IH]; simpl; intros Hp Hf Hown; [constructor|].
  inversion Hp as [|? ? Hpe Hpl]; subst.
  inversion Hf as [|? ? Hfe Hfl]; subst.
  unfold rewritten at 1.
  destruct (String.eqb (file_path e) path) eqn:E.
  - apply String.eqb_eq in E. subst path.
    rewrite rewritten_elsewhere by exact Hfe.
    constructor; [|exact Hpl]. simpl.
    rewrite in_map_iff. intros (x & Hx & Hin).
    apply Hfe. rewrite <- (Hown x (or_intror Hin) Hx). now apply in_map.
  - apply String.eqb_neq in E.
    constructor; [|apply IH; auto].
    rewrite map_map, in_map_iff. intros (x & Hx & Hin).
    unfold rewritten in Hx.
    destruct (String.eqb (file_path x) path); simpl in Hx.
    + apply E. apply (Hown e (or_introl eq_refl)). now symmetry.
    + apply Hpe. rewrite <- Hx. now apply in_map.
Qed.

Lemma find_by_file_path_none (s : Store) (path : string) :
  find_by_file_path s path = None -> ~ In path (map file_path (entities s)).
Proof.
  unfold find_by_file_path. intros H Hin.
  apply in_map_iff in Hin. destruct Hin as (e & He & Hin).
  apply (find_none _ _ H) in Hin. rewrite He, String.eqb_refl in Hin.
  discriminate Hin.
Qed.

Lemma find_by_permalink_none (s : Store) (p : string) :
  find_by_permalink s p = None -> taken s p = false.
Proof.
  unfold find_by_permalink, taken. intro H.
  destruct (existsb _ (entities s)) eqn:E; [|reflexivity].
  apply existsb_exists in E. destruct E as (e & Hin & He).
  apply (find_none _ _ H) in Hin. congruence.
Qed.

(** The permalink phase 4 settles on is held by no entity but, possibly,
    the entity of the file itself. *)
Lemma resolve_permalink_own (s : Store) (path : string) (parsed : ParsedEntity) :
  unique s ->
  forall e, In e (entities s) ->
            permalink e = resolve_permalink s path parsed ->
            file_path e = path.
Proof.
  intros [Hp Hf] e Hin He. unfold resolve_permalink in He.
  destruct (find_by_file_path s path) as [existing|] eqn:Hex.
  - apply find_some in Hex. destruct Hex as [Hexin Hexp].
    apply String.eqb_eq in Hexp.
    destruct (find_by_permalink s (candidate_permalink path parsed))
      as [other|] eqn:Hother.
    + apply find_some in Hother. destruct Hother as [Hoin Hop].
      apply String.eqb_eq in Hop.
      destruct (String.eqb (file_path other) path) eqn:E.
      * apply String.eqb_eq in E.
        rewrite (nodup_map_eq permalink _ e other Hp Hin Hoin); [exact E|].
        congruence.
      * now rewrite (nodup_map_eq permalink _ e existing Hp Hin Hexin He).
    + apply find_by_permalink_none in Hother.
      assert (Ht : taken s (candidate_permalink path parsed) = true).
      { apply taken_in. rewrite <- He. now apply in_map. }
      congruence.
  - pose proof (allocate_unique_permalink_free s
                  (candidate_permalink path parsed)) as Hfree.
    assert (Ht : taken s (allocate_unique_permalink s
                            (candidate_permalink path parsed)) = true).
    { apply taken_in. rewrite <- He. now apply in_map. }
    congruence.
Qed.

(** Phase 4 keeps permalinks and file paths distinct. *)
Lemma sync_entity_unique (s : Store) (path : string) (parsed : ParsedEntity) :
  unique s -> unique (sync_entity s path parsed).
Proof.
  intro Hu. pose proof (resolve_permalink_own s path parsed Hu) as Hown.
  destruct Hu as [Hp Hf].
  unfold sync_entity, upsert_entity.
  destruct (find_by_file_path s path) as [existing|] eqn:Hex;
    unfold unique; cbn [entities].
  - change (fun e : Entity => _)
      with (rewritten path (resolve_permalink s path parsed)
                      (parsed_title parsed)).
    split.
    + now apply rewritten_permalinks.
    + now rewrite rewritten_file_paths.
  - rewrite !map_app. simpl. split.
    + apply NoDup_app; [exact Hp|constructor; [intros []|constructor]|].
      intros p Hin [<-|[]].
      apply in_map_iff in Hin. destruct Hin as (e & He & Hin).
      apply (find_by_file_path_none s path Hex).
      rewrite <- (Hown e Hin He). now apply in_map.
    + apply NoDup_app; [exact Hf|constructor; [intros []|constructor]|].
      intros p Hin [<-|[]].
      now apply (find_by_file_path_none s path Hex).
Qed.

Lemma delete_by_file_path_unique (s : Store) (path : string) :
  unique s -> unique (delete_by_file_path s path).
Proof.
  intros [Hp Hf]. unfold delete_by_file_path.
  destruct (find_by_file_path s path); [|now split].
  split; cbn [entities]; now apply nodup_map_filter.
Qed.

Lemma sync_relations_unique
    (search : Store -> string -> list LinkResolver.SearchResult)
    (s : Store) (path : string) (parsed : ParsedEntity) (c : string) :
  unique s -> unique (sync_relations search s path parsed c).
Proof.
  intros [Hp Hf]. unfold sync_relations.
  destruct (find_by_file_path s path); [|now split].
  assert (Hsame : forall f : Entity -> string,
            (forall e, f (commit_checksum path c e) = f e) ->
            map f (map (commit_checksum path c) (entities s))
            = map f (entities s)).
  { intros f Hfe. rewrite map_map. apply map_ext. exact Hfe. }
  split; cbn [entities]; rewrite Hsame; auto;
    intro x; unfold commit_checksum;
    now destruct (String.eqb (file_path x) path).
Qed.

Lemma fold_left_invariant {A B : Type} (f : A -> B -> A) (P : A -> Prop)
    (l : list B) (a : A) :
  (forall a b, P a -> P (f a b)) -> P a -> P (fold_left f l a).
Proof.
  intro Hstep. revert a. induction l as [|b l IH]; simpl; intros a Ha;
    [exact Ha|].
  apply IH. now apply Hstep.
Qed.

(** A cycle keeps permalinks and file paths distinct. *)
Lemma sync_cycle_unique
    (search : Store -> string -> list LinkResolver.SearchResult)
    (s : Store) (deleted : list string) (changed : list Change) :
  unique s -> unique (sync_cycle search s deleted changed).
Proof.
  intro Hu. unfold sync_cycle.
  apply fold_left_invariant;
    [intros a b; apply sync_relations_unique|].
  apply fold_left_invariant;
    [intros a b; apply sync_entity_unique|].
  apply fold_left_invariant;
    [intros a b; apply delete_by_file_path_unique|].
  exact Hu.
Qed.

(** *** Permalinks *)

(** No full-text index: the resolver matches permalinks and titles
    only. *)
Definition no_search (s : Store) (text : string)
  : list LinkResolver.SearchResult := [].

Definition empty_store : Store :=
  {| entities := []; relations := []; next_id := 1 |}.

(** A file without frontmatter permalink and without relations. *)
Definition note (t : string) : ParsedEntity :=
  {| fm_permalink := None; parsed_title := t; parsed_relations := [] |}.

(** The store of [test_sync_permalink_resolved_on_update] after its first
    sync: [one.md] and [two.md], with the permalinks [one] and [two]. *)
Definition two_notes : Store :=
  sync_cycle no_search empty_store []
    [ ("one.md", note "one", "c1"); ("two.md", note "two", "c2") ].

(** [two.md], edited to claim the permalink of [one.md]. *)
Definition two_claims_one : ParsedEntity :=
  {| fm_permalink := Some "one"; parsed_title := "two.md";
     parsed_relations := [] |}.

(** [new.md], created with the permalink of [one.md]. *)
Definition new_claims_one : ParsedEntity :=
  {| fm_permalink := Some "one"; parsed_title := "new.md";
     parsed_relations := [] |}.

Lemma two_notes_unique : unique two_notes.
Proof.
  split; cbn; repeat constructor; simpl; intuition discriminate.
Qed.

(** C2, as stated: a candidate that collides with another entity's
    permalink would always come back with a suffix [-N]. The modified
    [two.md] that claims [one] keeps [two]. *)
Lemma modified_file_keeps_its_permalink :
  ~ (forall (s : Store) (path : string) (parsed : ParsedEntity) (other : Entity),
       unique s ->
       find_by_permalink s (candidate_permalink path parsed) = Some other ->
       file_path other <> path ->
       exists N, 1 <= N /\
                 resolve_permalink s path parsed
                 = suffixed (candidate_permalink path parsed) N).
Proof.
  intro H.
  destruct (H two_notes "two.md" two_claims_one
              {| id := 1; permalink := "one"; title := "one";
                 file_path := "one.md"; checksum := Some "c1" |}
              two_notes_unique eq_refl) as (N & _ & HN).
  - discriminate.
  - cbn in HN. discriminate HN.
Qed.

(** C2, amended. Permalink uniqueness is an invariant of sync: a cycle
    that starts from a store without shared permalinks and file paths ends
    in one. The permalink given to a file is, for a new file, the
    candidate when it is free and else the candidate with the suffix [-N]
    for the least [N >= 1] that is free; for a modified file, the candidate
    when it is free or the file's own, and else the permalink its entity
    already has. *)
Theorem permalinks_unique_after_sync
    (search : Store -> string -> list LinkResolver.SearchResult)
    (s : Store) (deleted : list string) (changed : list Change) :
  unique s ->
  unique (sync_cycle search s deleted changed) /\
  forall (s0 : Store) (path : string) (parsed : ParsedEntity),
    let c := candidate_permalink path parsed in
    let p := resolve_permalink s0 path parsed in
    match find_by_file_path s0 path with
    | None =>
        if taken s0 c
        then exists N, 1 <= N /\
                       p = suffixed c N /\
                       taken s0 (suffixed c N) = false /\
                       forall M, 1 <= M < N -> taken s0 (suffixed c M) = true
        else p = c
    | Some existing =>
        match find_by_permalink s0 c with
        | None => p = c
        | Some other =>
            if String.eqb (file_path other) path then p = c
            else p = permalink existing
        end
    end.
Proof.
  intro Hu. split; [now apply sync_cycle_unique|].
  intros s0 path parsed c p. subst p. unfold resolve_permalink. fold c.
  destruct (find_by_file_path s0 path) as [existing|].
  - destruct (find_by_permalink s0 c) as [other|]; [|reflexivity].
    now destruct (String.eqb (file_path other) path).
  - apply allocate_unique_permalink_least.
Qed.

Lemma permalinks_unique_after_sync_witness :
  unique two_notes /\
  unique (sync_cycle no_search two_notes []
            [ ("two.md", two_claims_one, "c3");
              ("new.md", new_claims_one, "c4") ]) /\
  map permalink
      (entities (sync_cycle no_search two_notes []
                   [ ("two.md", two_claims_one, "c3");
                     ("new.md", new_claims_one, "c4") ]))
  = ["one"; "two"; "one-1"].
Proof.
  split; [exact two_notes_unique|].
  split; [|reflexivity].
  exact (proj1 (permalinks_unique_after_sync no_search two_notes []
                  [ ("two.md", two_claims_one, "c3");
                    ("new.md", new_claims_one, "c4") ]
                  two_notes_unique)).
Defined.

(** *** Forward references *)









End EntityStoreFacts.

(* ===================================================================== *)
(** ** The context traversal *)
(* ===================================================================== *)

Module ContextService.

(** The three kinds of rows of the search index. *)
Inductive ItemType : Type :=
  | EntityItem
  | ObservationItem
  | RelationItem.

Definition item_type_eqb (a b : ItemType) : bool :=
  match a, b with
  | EntityItem, EntityItem => true
  | ObservationItem, ObservationItem => true
  | RelationItem, RelationItem => true
  | _, _ => false
  end.

(** The columns of a [SearchIndexRow] the traversal reads; [updated_at]
    is an instant in seconds. *)
Record SearchIndexRow : Type := mkRow
  { row_type : ItemType;
    row_id : Z;
    row_entity_id : option Z;
    row_from_id : option Z;
    row_to_id : option Z;
    row_updated_at : Z }.

Definition is_a (t : ItemType) (row : SearchIndexRow) : bool :=
  item_type_eqb (row_type row) t.

(** The timeframe filter on one row: [updated_at >= since]. *)
Definition admitted (since : Z) (row : SearchIndexRow) : bool :=
  (since <=? row_updated_at row)%Z.

Definition refers_to (column : option Z) (e : Z) : bool :=
  match column with
  | Some x => Z.eqb x e
  | None => false
  end.

Definition column_ids (column : option Z) : list Z :=
  match column with
  | Some x => [x]
  | None => []
  end.

Section Traversal.

Variable index : list SearchIndexRow.
Variable since : Z.
(** The nodes the traversal starts from: [type_id_pairs]. *)
Variable primaries : list (ItemType * Z).

(** entity -> its observations *)
Definition observations_of (e : Z) : list SearchIndexRow :=
  filter (fun row => is_a ObservationItem row
                     && refers_to (row_entity_id row) e
                     && admitted since row)
         index.

(** entity -> its outgoing and incoming relations *)
Definition relations_of (e : Z) : list SearchIndexRow :=
  filter (fun row => is_a RelationItem row
                     && (refers_to (row_from_id row) e
                         || refers_to (row_to_id row) e)
                     && admitted since row)
         index.

(** The entity ids at the other end of a relation of [e]. *)
Definition other_ends (r : SearchIndexRow) (e : Z) : list Z :=
  (if refers_to (row_from_id r) e then column_ids (row_to_id r) else [])
  ++ (if refers_to (row_to_id r) e then column_ids (row_from_id r) else []).

(** relation -> the entity at its other end *)
Definition entities_through (e : Z) (r : SearchIndexRow) : list SearchIndexRow :=
  filter (fun row => is_a EntityItem row
                     && existsb (Z.eqb (row_id row)) (other_ends r e)
                     && admitted since row)
         index.

(** One hop from the entity [e]. *)
Definition reach (e : Z) : list SearchIndexRow :=
  observations_of e
  ++ flat_map (fun r => r :: entities_through e r) (relations_of e).

Definition same_node (a b : SearchIndexRow) : bool :=
  item_type_eqb (row_type a) (row_type b) && Z.eqb (row_id a) (row_id b).

Definition is_primary (row : SearchIndexRow) : bool :=
  existsb (fun p => item_type_eqb (fst p) (row_type row)
                    && Z.eqb (snd p) (row_id row))
          primaries.

(** [rows], visited in order: a row that is neither a primary nor found
    already is appended to [found]. *)
Fixpoint add_new (found rows : list SearchIndexRow) : list SearchIndexRow :=
  match rows with
  | [] => found
  | r :: rows' =>
      if is_primary r || existsb (same_node r) found
      then add_new found rows'
      else add_new (found ++ [r]) rows'
  end.

Definition entity_ids (rows : list SearchIndexRow) : list Z :=
  map row_id (filter (is_a EntityItem) rows).

(** Breadth-first expansion: [depth] more hops from the entities of
    [frontier]. *)
Fixpoint expand (depth : nat) (frontier : list Z) (found : list SearchIndexRow)
  : list SearchIndexRow :=
  match depth with
  | O => found
  | S depth' =>
      let found' := add_new found (flat_map reach frontier) in
      let fresh := skipn (List.length found) found' in
      expand depth' (entity_ids fresh) found'
  end.

(** Modelled from the spec: [ContextService.find_connected], section 4.H
    steps 3 and 4; the service is not in the sources. The rows related to
    the primaries within [max_depth] hops, each hop leading from an entity
    to its observations, and over a relation to the entity at its other
    end; a row is passed only if its [updated_at] is not before [since]. *)
Definition find_connected (max_depth : nat) : list SearchIndexRow :=
  expand max_depth
         (map snd (filter (fun p => item_type_eqb (fst p) EntityItem) primaries))
         [].

(** A row is linked when a chain of admitted rows leads to it from a
    primary entity. *)
Inductive linked : SearchIndexRow -> Prop :=
  | linked_observation (e : Z) (o : SearchIndexRow) :
      origin e -> In o (observations_of e) -> linked o
  | linked_relation (e : Z) (r : SearchIndexRow) :
      origin e -> In r (relations_of e) -> linked r
  | linked_entity (e : Z) (r x : SearchIndexRow) :
      origin e -> In r (relations_of e) -> In x (entities_through e r) ->
      linked x
with origin : Z -> Prop :=
  | origin_primary (e : Z) :
      In (EntityItem, e) primaries -> origin e
  | origin_linked (x : SearchIndexRow) :
      linked x -> row_type x = EntityItem -> origin (row_id x).

End Traversal.

End ContextService.

(* ===================================================================== *)
(** ** Facts about the context traversal *)
(* ===================================================================== *)

Module ContextServiceFacts.

Import ContextService.

Lemma item_type_eqb_eq (a b : ItemType) : item_type_eqb a b = true <-> a = b.
Proof. destruct a, b; simpl; split; intro H; congruence. Qed.

Lemma refers_to_eq (column : option Z) (e : Z) :
  refers_to column e = true <-> column = Some e.
Proof.
  destruct column as [x|]; simpl; [|split; discriminate].
  rewrite Z.eqb_eq. split; congruence.
Qed.

Section Traversal.

Variable index : list SearchIndexRow.
Variable since : Z.
Variable primaries : list (ItemType * Z).

Local Abbreviation reach := (reach index since).
Local Abbreviation linked := (linked index since primaries).
Local Abbreviation origin := (origin index since primaries).
Local Abbreviation add_new := (add_new primaries).
Local Abbreviation expand := (expand index since primaries).

(** Every row one hop from an origin is admitted and linked. *)
Lemma reach_linked (e : Z) (row : SearchIndexRow) :
  origin e -> In row (reach e) -> admitted since row = true /\ linked row.
Proof.
  intros He Hin. unfold ContextService.reach in Hin.
  apply in_app_or in Hin. destruct Hin as [Hin|Hin].
  - split; [|now apply (linked_observation _ _ _ e)].
    apply filter_In in Hin. destruct Hin as [_ H].
    now apply andb_true_iff in H.
  - apply in_flat_map in Hin. destruct Hin as (r & Hr & [<-|Hx]).
    + split; [|now apply (linked_relation _ _ _ e)].
      apply filter_In in Hr. destruct Hr as [_ H].
      now apply andb_true_iff in H.
    + split; [|now apply (linked_entity _ _ _ e r)].
      apply filter_In in Hx. destruct Hx as [_ H].
      now apply andb_true_iff in H.
Qed.

(** [add_new] appends some of the rows it is given. *)
Lemma add_new_appends (rows found : list SearchIndexRow) :
  exists extra,
    add_new found rows = found ++ extra /\
    forall row, In row extra -> In row rows.
Proof.
  revert found. induction rows as [|r rows IH]; intro found; simpl.
  - exists []. split; [now rewrite app_nil_r|intros row []].
  - destruct (is_primary primaries r || existsb (same_node r) found).
    + destruct (IH found) as (extra & Heq & Hsub).
      exists extra. split; [exact Heq|]. intros row Hrow. right. now apply Hsub.
    + destruct (IH (found ++ [r])) as (extra & Heq & Hsub).
      exists (r :: extra). split; [now rewrite Heq, <- app_assoc|].
      intros row [<-|Hrow]; [now left|right; now apply Hsub].
Qed.

Lemma skipn_found (found extra : list SearchIndexRow) :
  skipn (List.length found) (found ++ extra) = extra.
Proof. induction found as [|x found IH]; simpl; auto. Qed.

(** The expansion keeps a property of rows that every hop from its
    frontier has, as long as the entities it finds may join the frontier. *)
Lemma expand_invariant (P : SearchIndexRow -> Prop) (F : Z -> Prop)
    (depth : nat) (frontier : list Z) (found : list SearchIndexRow) :
  (forall e row, F e -> In row (reach e) -> P row) ->
  (forall row, P row -> is_a EntityItem row = true -> F (row_id row)) ->
  (forall e, In e frontier -> F e) ->
  (forall row, In row found -> P row) ->
  forall row, In row (expand depth frontier found) -> P row.
Proof.
  intros Hreach Hjoin. revert frontier found.
  induction depth as [|depth IH]; intros frontier found Hfrontier Hfound;
    simpl; [exact Hfound|].
  destruct (add_new_appends (flat_map reach frontier) found)
    as (extra & Heq & Hsub).
  rewrite Heq, skipn_found.
  assert (Hextra : forall row, In row extra -> P row).
  { intros row Hrow. apply Hsub, in_flat_map in Hrow.
    destruct Hrow as (e & He & Hrow). exact (Hreach e row (Hfrontier e He) Hrow). }
  apply IH.
  - intros e He. unfold entity_ids in He. apply in_map_iff in He.
    destruct He as (x & <- & Hx). apply filter_In in Hx.
    destruct Hx as [Hx Htype]. apply Hjoin; [now apply Hextra|exact Htype].
  - intros row Hrow. apply in_app_or in Hrow.
    destruct Hrow as [Hrow|Hrow]; [now apply Hfound|now apply Hextra].
Qed.

Lemma primary_entity (e : Z) :
  In e (map snd (filter (fun p => item_type_eqb (fst p) EntityItem) primaries)) ->
  In (EntityItem, e) primaries.
Proof.
  intro H. apply in_map_iff in H. destruct H as ([t x] & Hx & Hin).
  apply filter_In in Hin. destruct Hin as [Hin Ht].
  simpl in Hx, Ht. apply item_type_eqb_eq in Ht. now subst.
Qed.

(** No admitted relation touches the entity [e]. *)
Definition cut_off (e : Z) : Prop :=
  forall r, In r index -> row_type r = RelationItem ->
            row_from_id r = Some e \/ row_to_id r = Some e ->
            (row_updated_at r < since)%Z.

Lemma cut_off_reach (e : Z) (row : SearchIndexRow) :
  cut_off e -> In row (reach e) -> row_type row = ObservationItem.
Proof.
  intros Hcut Hin. unfold ContextService.reach in Hin.
  assert (Hnone : relations_of index since e = []).
  { unfold relations_of.
    destruct (filter _ index) as [|r l] eqn:Hf; [reflexivity|].
    assert (Hr : In r (filter
                         (fun row => is_a RelationItem row
                                     && (refers_to (row_from_id row) e
                                         || refers_to (row_to_id row) e)
                                     && admitted since row) index))
      by (rewrite Hf; now left).
    apply filter_In in Hr. destruct Hr as [Hr H].
    apply andb_true_iff in H. destruct H as [H Hadm].
    apply andb_true_iff in H. destruct H as [Ht Hends].
    apply item_type_eqb_eq in Ht.
    apply orb_true_iff in Hends. rewrite !refers_to_eq in Hends.
    pose proof (Hcut r Hr Ht Hends) as Hold.
    unfold admitted in Hadm. apply Z.leb_le in Hadm. lia. }
  rewrite Hnone in Hin. simpl in Hin. rewrite app_nil_r in Hin.
  apply filter_In in Hin. destruct Hin as [_ H].
  apply andb_true_iff in H. destruct H as [H _].
  apply andb_true_iff in H. destruct H as [H _].
  now apply item_type_eqb_eq in H.
Qed.

(** C8. The timeframe filter of the context builder. Every row among the
    related results has [updated_at >= since] and is linked to a primary
    entity by a chain of rows that were admitted the same way. So when
    every relation that touches a primary entity is older than [since],
    the results hold observations only: no entity is reached, whatever its
    own timestamp. *)
Theorem timeframe_filter (max_depth : nat) :
  (forall row,
     In row (find_connected index since primaries max_depth) ->
     (since <= row_updated_at row)%Z /\ linked row) /\
  ((forall e, In (EntityItem, e) primaries -> cut_off e) ->
   forall row,
     In row (find_connected index since primaries max_depth) ->
     row_type row = ObservationItem).
Proof.
  split.
  - intros row Hrow.
    assert (H : admitted since row = true /\ linked row).
    { revert row Hrow. unfold find_connected.
      apply (expand_invariant
               (fun row => admitted since row = true /\ linked row) origin).
      - intros e x He Hx. now apply reach_linked with (e := e).
      - intros x [_ Hx] Ht. apply origin_linked; [exact Hx|].
        now apply item_type_eqb_eq.
      - intros e He. apply origin_primary. now apply primary_entity.
      - intros x []. }
    destruct H as [Hadm Hl]. split; [|exact Hl].
    now apply Z.leb_le.
  - intros Hcut. unfold find_connected.
    apply (expand_invariant
             (fun row => row_type row = ObservationItem) cut_off).
    + intros e x He Hx. now apply cut_off_reach with (e := e).
    + intros x Hx Ht. apply item_type_eqb_eq in Ht. congruence.
    + intros e He. apply Hcut. now apply primary_entity.
    + intros x [].
Qed.

End Traversal.

(** The graph of [test_find_connected_timeframe], with the instant of the
    test as day 100: the root entity and its relation to [connected1] were
    updated ten days ago, [connected1] and an observation of the root one
    day ago. *)
Definition day : Z := 86400.

Definition test_index : list SearchIndexRow :=
  [ {| row_type := EntityItem; row_id := 1; row_entity_id := None;
       row_from_id := None; row_to_id := None;
       row_updated_at := 90 * day |};
    {| row_type := RelationItem; row_id := 1; row_entity_id := None;
       row_from_id := Some 1%Z; row_to_id := Some 2%Z;
       row_updated_at := 90 * day |};
    {| row_type := EntityItem; row_id := 2; row_entity_id := None;
       row_from_id := None; row_to_id := None;
       row_updated_at := 99 * day |};
    {| row_type := ObservationItem; row_id := 1; row_entity_id := Some 1%Z;
       row_from_id := None; row_to_id := None;
       row_updated_at := 99 * day |} ]%Z.

(** With a cutoff of seven days the recent [connected1] is not reached;
    with one of thirty days it is. *)
Example find_connected_timeframe :
  map (fun row => (row_type row, row_id row))
      (find_connected test_index (93 * day) [(EntityItem, 1%Z)] 2)
  = [(ObservationItem, 1%Z)] /\
  map (fun row => (row_type row, row_id row))
      (find_connected test_index (70 * day) [(EntityItem, 1%Z)] 2)
  = [(ObservationItem, 1%Z); (RelationItem, 1%Z); (EntityItem, 2%Z)].
Proof. split; reflexivity. Qed.

End ContextServiceFacts.

(* ===================================================================== *)
(** ** More about the link resolver *)
(* ===================================================================== *)

Module BestMatch.

(** The last three lines of [_select_best_match], for scores of any kind:
    the scoring loop has left one key per result ([key]), and
    [list.sort(key=lambda x: x[0], reverse=True)] compares keys with
    Python's [<] only ([lt]). *)
Section Select.

Variable Result : Type.
Variable Score : Type.
Variable key : Result -> Score.
Variable lt : Score -> Score -> bool.

(** [scored_results], in the order of [results]. *)
Definition scored_results (results : list Result) : list (Score * Result) :=
  map (fun r => (key r, r)) results.

(** One step of a stable sort by decreasing key: [x] stood before every
    element of [l] in the unsorted list, so it goes before the first element
    that its key is not smaller than. *)
Fixpoint insert_desc (x : Score * Result) (l : list (Score * Result))
  : list (Score * Result) :=
  match l with
  | [] => [x]
  | y :: l' =>
      if lt (fst x) (fst y) then y :: insert_desc x l'
      else x :: y :: l'
  end.

(** [l.sort(key=lambda x: x[0], reverse=True)] *)
Definition sort_reverse (l : list (Score * Result)) : list (Score * Result) :=
  fold_right insert_desc [] l.

(** [scored_results[0][1]] after the sort; [None] stands for the
    [ValueError] on an empty list. *)
Definition select_best (results : list Result) : option Result :=
  match results with
  | [] => None
  | _ :: _ =>
      match sort_reverse (scored_results results) with
      | [] => None
      | (_, r) :: _ => Some r
      end
  end.

(** [<] orders the keys of a list: it is transitive on them, and so is its
    complement. Floats that are not NaN are ordered in this way. *)
Definition ordered (keys : list Score) : Prop :=
  (forall a b c, In a keys -> In b keys -> In c keys ->
     lt a b = true -> lt b c = true -> lt a c = true) /\
  (forall a b c, In a keys -> In b keys -> In c keys ->
     lt a b = false -> lt b c = false -> lt a c = false).

End Select.

Arguments scored_results {Result Score}.
Arguments insert_desc {Result Score}.
Arguments sort_reverse {Result Score}.
Arguments select_best {Result Score}.
Arguments ordered {Score}.

(** [<] on the rational scores of [LinkResolver]. *)
Definition Qlt_bool (a b : Q) : bool := negb (Qle_bool b a).

End BestMatch.

Module LinkResolverMore.

Import PyStr LinkResolver LinkResolverFacts.

(** *** The choice among the scored results *)

Section Select.

Variable Result : Type.
Variable Score : Type.
Variable key : Result -> Score.
Variable lt : Score -> Score -> bool.

Lemma ordered_tail (k : Score) (keys : list Score) :
  BestMatch.ordered lt (k :: keys) -> BestMatch.ordered lt keys.
Proof.
  intros [Ht Hn]. split; intros a b c Ha Hb Hc.
  - apply Ht; now right.
  - apply Hn; now right.
Qed.

(** The head of the sorted list is the first of the largest keys of the
    unsorted one. *)
Lemma sort_reverse_first_largest (l : list (Score * Result)) :
  BestMatch.ordered lt (map fst l) ->
  match BestMatch.sort_reverse lt l with
  | [] => l = []
  | x :: _ =>
      exists before after,
        l = before ++ x :: after /\
        (forall y, In y before -> lt (fst y) (fst x) = true) /\
        (forall y, In y after -> lt (fst x) (fst y) = false)
  end.
Proof.
  induction l as [|a l IH]; intro Hord; [reflexivity|].
  specialize (IH (ordered_tail _ _ Hord)).
  cbn [BestMatch.sort_reverse fold_right].
  fold (BestMatch.sort_reverse lt l).
  destruct (BestMatch.sort_reverse lt l) as [|y t]; cbn [BestMatch.insert_desc].
  - subst l. exists [], []. split; [reflexivity|]. split; intros z [].
  - destruct IH as (before & after & Hl & Hb & Ha).
    destruct Hord as [Htrans Hneg].
    assert (Hin : forall z, In z l -> In (fst z) (map fst (a :: l))).
    { intros z Hz. right. now apply in_map. }
    assert (Hina : In (fst a) (map fst (a :: l))) by now left.
    assert (Hiny : In y l).
    { rewrite Hl. apply in_or_app. right. now left. }
    destruct (lt (fst a) (fst y)) eqn:Hlt.
    + exists (a :: before), after. split; [now rewrite Hl|]. split.
      * intros z [<-|Hz]; [exact Hlt|now apply Hb].
      * exact Ha.
    + exists [], l. split; [reflexivity|]. split; [intros z []|].
      intros z Hz.
      assert (Hz' := Hz). rewrite Hl in Hz'. apply in_app_or in Hz'.
      destruct Hz' as [Hz'|[<-|Hz']].
      * destruct (lt (fst a) (fst z)) eqn:Haz; [|reflexivity].
        rewrite <- Hlt. symmetry.
        apply (Htrans (fst a) (fst z) (fst y)); auto.
      * exact Hlt.
      * apply (Hneg (fst a) (fst y) (fst z)); auto.
Qed.

(** X1. On a non-empty result list [_select_best_match] returns the first
    result, in search order, whose adjusted score is largest, whatever
    scores the scoring loop has computed, as long as [<] orders them (no
    NaN among them): every result before the returned one scores strictly
    less, and no result after it scores more. *)
Theorem select_best_first_of_largest (r0 : Result) (rs : list Result) :
  BestMatch.ordered lt (map key (r0 :: rs)) ->
  exists before best after,
    r0 :: rs = before ++ best :: after /\
    BestMatch.select_best key lt (r0 :: rs) = Some best /\
    (forall r, In r before -> lt (key r) (key best) = true) /\
    (forall r, In r after -> lt (key best) (key r) = false).
Proof.
  intro Hord. unfold BestMatch.select_best.
  pose proof (sort_reverse_first_largest
                (BestMatch.scored_results key (r0 :: rs))) as H.
  unfold BestMatch.scored_results in H at 1.
  rewrite map_map in H. cbn [fst] in H.
  specialize (H Hord).
  destruct (BestMatch.sort_reverse lt (BestMatch.scored_results key (r0 :: rs)))
    as [|[k best] t]; [discriminate H|].
  destruct H as (before & after & Hl & Hb & Ha).
  unfold BestMatch.scored_results in Hl.
  apply map_eq_app in Hl. destruct Hl as (rb & rest & Hres & Hmb & Hrest).
  apply map_eq_cons in Hrest. destruct Hrest as (b & ra & -> & Hk & Hma).
  injection Hk as Hk <-. subst k before after.
  exists rb, b, ra. split; [exact Hres|]. split; [reflexivity|]. split.
  - intros r Hr. apply (Hb (key r, r)). apply in_map_iff. now exists r.
  - intros r Hr. apply (Ha (key r, r)). apply in_map_iff. now exists r.
Qed.

End Select.

(** Rational scores are ordered by [<]. *)
Lemma rationals_ordered (keys : list Q) :
  BestMatch.ordered BestMatch.Qlt_bool keys.
Proof.
  assert (Hlt : forall a b, BestMatch.Qlt_bool a b = true <-> (a < b)%Q).
  { intros a b. unfold BestMatch.Qlt_bool. rewrite negb_true_iff. split.
    - intro H. apply Qnot_le_lt. intro Hc. apply Qle_bool_iff in Hc. congruence.
    - intro H. destruct (Qle_bool b a) eqn:E; [|reflexivity].
      apply Qle_bool_iff in E. now apply Qlt_not_le in H. }
  assert (Hge : forall a b, BestMatch.Qlt_bool a b = false <-> (b <= a)%Q).
  { intros a b. unfold BestMatch.Qlt_bool. rewrite negb_false_iff.
    apply Qle_bool_iff. }
  split; intros a b c _ _ _.
  - rewrite !Hlt. apply Qlt_trans.
  - rewrite !Hge. intros Hab Hbc. now apply Qle_trans with (y := b).
Qed.

(** With rational scores the selection is the one of
    [LinkResolver._select_best_match]. *)
Lemma select_best_rational (search_text : string) (results : list SearchResult) :
  BestMatch.select_best (adjusted_score search_text) BestMatch.Qlt_bool results
  = _select_best_match search_text results.
Proof.
  assert (Hins : forall x l,
             BestMatch.insert_desc BestMatch.Qlt_bool x l = insert_desc x l).
  { intros x l. induction l as [|y l IH]; [reflexivity|].
    cbn [BestMatch.insert_desc insert_desc].
    change (BestMatch.Qlt_bool (fst x) (fst y))
      with (negb (Qle_bool (fst y) (fst x))).
    destruct (Qle_bool (fst y) (fst x)); cbn [negb]; [reflexivity|].
    now rewrite IH. }
  assert (Hsort : forall l,
             BestMatch.sort_reverse BestMatch.Qlt_bool l = sort_reverse l).
  { unfold BestMatch.sort_reverse, sort_reverse.
    induction l as [|x l IH]; [reflexivity|].
    cbn [fold_right]. rewrite IH. apply Hins. }
  unfold BestMatch.select_best, _select_best_match.
  destruct results as [|r rs]; [reflexivity|].
  now rewrite Hsort.
Qed.

(** Three results found for the text [zeta]: the first and the third end
    up with the same adjusted score, the second with a smaller one. *)
Definition zeta_results : list SearchResult :=
  [ {| sr_id := 1; sr_permalink := "notes/alpha"; sr_score := 2 |};
    {| sr_id := 2; sr_permalink := "notes/zeta"; sr_score := 10 |};
    {| sr_id := 3; sr_permalink := "notes/zeta-plan"; sr_score := 4 |} ].

Lemma select_best_first_of_largest_witness :
  BestMatch.ordered BestMatch.Qlt_bool
    (map (adjusted_score "zeta") zeta_results) /\
  BestMatch.select_best (adjusted_score "zeta") BestMatch.Qlt_bool zeta_results
  = nth_error zeta_results 0 /\
  exists before best after,
    zeta_results = before ++ best :: after /\
    BestMatch.select_best (adjusted_score "zeta") BestMatch.Qlt_bool zeta_results
    = Some best /\
    (forall r, In r before ->
       BestMatch.Qlt_bool (adjusted_score "zeta" r) (adjusted_score "zeta" best)
       = true) /\
    (forall r, In r after ->
       BestMatch.Qlt_bool (adjusted_score "zeta" best) (adjusted_score "zeta" r)
       = false).
Proof.
  split; [apply rationals_ordered|]. split; [reflexivity|].
  exact (select_best_first_of_largest SearchResult Q (adjusted_score "zeta")
           BestMatch.Qlt_bool
           {| sr_id := 1; sr_permalink := "notes/alpha"; sr_score := 2 |}
           [ {| sr_id := 2; sr_permalink := "notes/zeta"; sr_score := 10 |};
             {| sr_id := 3; sr_permalink := "notes/zeta-plan"; sr_score := 4 |} ]
           (rationals_ordered _)).
Defined.

(** *** Link texts *)

Lemma append_empty_r (a : string) : (a ++ "")%string = a.
Proof. induction a as [|c a IH]; simpl; [reflexivity|now rewrite IH]. Qed.

Lemma append_associative (a b c : string) :
  ((a ++ b) ++ c)%string = (a ++ (b ++ c))%string.
Proof. induction a as [|x a IH]; simpl; [reflexivity|now rewrite IH]. Qed.

Lemma append_length (a b : string) :
  String.length (a ++ b) = String.length a + String.length b.
Proof. induction a as [|x a IH]; simpl; [reflexivity|now rewrite IH]. Qed.

Lemma rev_string_append (a b : string) :
  rev_string (a ++ b) = (rev_string b ++ rev_string a)%string.
Proof.
  induction a as [|x a IH]; simpl.
  - now rewrite append_empty_r.
  - now rewrite IH, append_associative.
Qed.

Lemma rev_string_involutive (a : string) : rev_string (rev_string a) = a.
Proof.
  induction a as [|x a IH]; simpl; [reflexivity|].
  now rewrite rev_string_append, IH.
Qed.

Lemma substring_front (a b : string) :
  String.substring 0 (String.length a) (a ++ b) = a.
Proof. induction a as [|x a IH]; simpl; [now destruct b|now rewrite IH]. Qed.

(** A bracketed text: [[[t]]]. *)
Definition bracketed (t : string) : string := ("[[" ++ t ++ "]]")%string.

Lemma rstrip_nonblank_end (a : string) (c : ascii) :
  is_space c = false ->
  rstrip (a ++ String c "") = (a ++ String c "")%string.
Proof.
  intro Hc. unfold rstrip. rewrite rev_string_append.
  cbn [rev_string String.append lstrip]. rewrite Hc.
  cbn [rev_string]. now rewrite rev_string_involutive.
Qed.

Lemma bracketed_end (t : string) :
  bracketed t = (("[[" ++ t ++ "]") ++ "]")%string.
Proof.
  unfold bracketed.
  change ("[[" ++ t ++ "]")%string with ("[[" ++ (t ++ "]"))%string.
  change ("[[" ++ (t ++ "]]"))%string with ("[[" ++ (t ++ ("]" ++ "]")))%string.
  now rewrite <- !append_associative.
Qed.

Lemma strip_bracketed (t : string) : strip (bracketed t) = bracketed t.
Proof.
  unfold strip.
  assert (Hl : lstrip (bracketed t) = bracketed t) by reflexivity.
  rewrite Hl, bracketed_end. now apply rstrip_nonblank_end.
Qed.

Lemma endswith_bracketed (t : string) : endswith "]]" (bracketed t) = true.
Proof.
  unfold endswith, bracketed.
  change ("[[" ++ t ++ "]]")%string with ("[[" ++ (t ++ "]]"))%string.
  rewrite !rev_string_append. cbn [rev_string String.append].
  destruct (rev_string t ++ "[[")%string; reflexivity.
Qed.

Lemma slice_bracketed (t : string) : slice_inner 2 2 (bracketed t) = t.
Proof.
  unfold slice_inner, bracketed.
  rewrite !append_length. simpl String.length.
  replace (2 + (String.length t + 2) - 2 - 2) with (String.length t) by lia.
  apply substring_front.
Qed.

(** [s] holds the character [c]. *)
Fixpoint has_char (c : ascii) (s : string) : bool :=
  match s with
  | EmptyString => false
  | String x s' => Ascii.eqb x c || has_char c s'
  end.

Lemma split_once_absent (c : ascii) (s : string) :
  has_char c s = false -> split_once c s = None.
Proof.
  induction s as [|x s IH]; simpl; [reflexivity|].
  intro H. apply orb_false_iff in H. destruct H as [Hx Hs].
  now rewrite Hx, IH.
Qed.

Lemma split_once_first (c : ascii) (a b : string) :
  has_char c a = false ->
  split_once c (a ++ String c b) = Some (a, b).
Proof.
  induction a as [|x a IH]; simpl.
  - intros _. now rewrite Ascii.eqb_refl.
  - intro H. apply orb_false_iff in H. destruct H as [Hx Ha].
    now rewrite Hx, IH.
Qed.

Lemma normalize_bracketed (t : string) :
  _normalize_link_text (bracketed t)
  = match split_once "|"%char t with
    | Some (a, alias) => (strip a, Some (strip alias))
    | None => (t, None)
    end.
Proof.
  unfold _normalize_link_text.
  rewrite strip_bracketed, endswith_bracketed, slice_bracketed.
  assert (Hs : startswith "[[" (bracketed t) = true).
  { unfold startswith, bracketed. cbn [String.append].
    destruct (t ++ "]]")%string; reflexivity. }
  rewrite Hs. reflexivity.
Qed.

(** X4. A wiki link [[[t]]] without a bar is normalized to [t] as it
    stands, blanks inside the brackets included, and has no alias. *)
Theorem normalize_plain_link (t : string) :
  has_char "|"%char t = false ->
  _normalize_link_text (bracketed t) = (t, None).
Proof.
  intro H. now rewrite normalize_bracketed, split_once_absent.
Qed.

Lemma normalize_plain_link_witness :
  has_char "|"%char " target doc " = false /\
  _normalize_link_text "[[ target doc ]]" = (" target doc ", None).
Proof.
  split; [reflexivity|].
  exact (normalize_plain_link " target doc " eq_refl).
Defined.

(** X5. An aliased wiki link [[[actual|alias]]] is cut at its first bar:
    the target is [actual] and the alias everything after that bar, each
    without the blanks around it. *)
Theorem normalize_aliased_link (actual alias : string) :
  has_char "|"%char actual = false ->
  _normalize_link_text (bracketed (actual ++ String "|" alias))
  = (strip actual, Some (strip alias)).
Proof.
  intro H. now rewrite normalize_bracketed, split_once_first.
Qed.

Lemma normalize_aliased_link_witness :
  has_char "|"%char "specs/search " = false /\
  _normalize_link_text "[[specs/search | the search | spec]]"
  = ("specs/search", Some "the search | spec").
Proof.
  split; [reflexivity|].
  exact (normalize_aliased_link "specs/search " " the search | spec" eq_refl).
Defined.

Section Resolve.

Variable Entity : Type.
Variable get_by_permalink : string -> option Entity.
Variable get_by_title : string -> option Entity.
Variable search : string -> list SearchResult.

Local Abbreviation resolve_link :=
  (resolve_link Entity get_by_permalink get_by_title search).

(** [resolve_link] reads the normalized target of the link text only. *)
Lemma resolve_link_target (a b : string) :
  fst (_normalize_link_text a) = fst (_normalize_link_text b) ->
  resolve_link a = resolve_link b.
Proof.
  unfold LinkResolver.resolve_link.
  destruct (_normalize_link_text a) as [ta aa].
  destruct (_normalize_link_text b) as [tb ab].
  simpl. now intros ->.
Qed.

(** X6. The alias of a wiki link plays no part in its resolution: two
    links with the same target before the first bar resolve alike, whatever
    repository and search service are behind the resolver. *)
Theorem resolve_link_ignores_alias (actual alias1 alias2 : string) :
  has_char "|"%char actual = false ->
  resolve_link (bracketed (actual ++ String "|" alias1))
  = resolve_link (bracketed (actual ++ String "|" alias2)).
Proof.
  intro H. apply resolve_link_target.
  now rewrite !normalize_aliased_link.
Qed.

(** X7. The brackets of a wiki link are optional: for a text that is
    already normal, [[[t]]] resolves as [t] does. *)
Theorem resolve_link_brackets_optional (t : string) :
  has_char "|"%char t = false ->
  fst (_normalize_link_text t) = t ->
  resolve_link (bracketed t) = resolve_link t.
Proof.
  intros Hbar Hnormal. apply resolve_link_target.
  now rewrite normalize_plain_link, Hnormal.
Qed.

End Resolve.

Lemma resolve_link_ignores_alias_witness :
  has_char "|"%char "notes/beta" = false /\
  resolve_link Z two_entities (fun _ => None) (fun _ => [])
    "[[notes/beta|first]]"
  = resolve_link Z two_entities (fun _ => None) (fun _ => [])
      "[[notes/beta|second]]".
Proof.
  split; [reflexivity|].
  exact (resolve_link_ignores_alias Z two_entities (fun _ => None)
           (fun _ => []) "notes/beta" "first" "second" eq_refl).
Defined.

Lemma resolve_link_brackets_optional_witness :
  has_char "|"%char "notes/beta" = false /\
  fst (_normalize_link_text "notes/beta") = "notes/beta" /\
  resolve_link Z two_entities (fun _ => None) (fun _ => []) "[[notes/beta]]"
  = resolve_link Z two_entities (fun _ => None) (fun _ => []) "notes/beta".
Proof.
  split; [reflexivity|]. split; [reflexivity|].
  exact (resolve_link_brackets_optional Z two_entities (fun _ => None)
           (fun _ => []) "notes/beta" eq_refl eq_refl).
Defined.

End LinkResolverMore.

(* ===================================================================== *)
(** ** More about the entity repository *)
(* ===================================================================== *)

Module EntityRepositoryMore.

Import PyStr EntityRepository EntityRepositoryFacts.

(** The entities of the table that one of the path ids names. *)
Definition named (path_ids : list string) (d : Database) : list Entity :=
  filter (fun e => existsb (String.eqb (path_id e)) path_ids) (entity_table d).

Lemma named_in (path_ids : list string) (d : Database) (e : Entity) :
  In e (named path_ids d) <->
  In e (entity_table d) /\ In (path_id e) path_ids.
Proof.
  unfold named. rewrite filter_In, existsb_exists.
  split; intros [He H]; (split; [exact He|]).
  - destruct H as (p & Hp & Heq). apply String.eqb_eq in Heq. now subst.
  - exists (path_id e). split; [exact H|apply String.eqb_refl].
Qed.

Lemma find_by_path_ids_named (path_ids : list string) (s : Session) :
  fst (find_by_path_ids path_ids s) = named path_ids (db s) /\
  db (snd (find_by_path_ids path_ids s)) = db s.
Proof.
  destruct path_ids as [|p ps]; [|split; reflexivity].
  split; [|reflexivity]. unfold named. simpl.
  induction (entity_table (db s)) as [|e l IH]; [reflexivity|exact IH].
Qed.

(** X8. [find_by_path_ids] returns the entities whose [path_id] is among
    the requested ones, and no other; when no row stands twice in the
    table no entity is returned twice, however often its path id is
    listed. The database is not changed, and at most one statement is
    executed. Nothing is said about the order of the rows. *)
Theorem find_by_path_ids_exact (path_ids : list string) (s : Session) :
  (forall e, In e (fst (find_by_path_ids path_ids s)) <->
             In e (entity_table (db s)) /\ In (path_id e) path_ids) /\
  (NoDup (entity_table (db s)) -> NoDup (fst (find_by_path_ids path_ids s))) /\
  db (snd (find_by_path_ids path_ids s)) = db s /\
  (exists issued, executed (snd (find_by_path_ids path_ids s))
                  = issued ++ executed s /\ List.length issued <= 1).
Proof.
  destruct (find_by_path_ids_named path_ids s) as [Hn Hdb].
  split; [|split; [|split]].
  - intro e. rewrite Hn. apply named_in.
  - rewrite Hn. unfold named. apply NoDup_filter.
  - exact Hdb.
  - destruct path_ids as [|p ps].
    + exists []. split; [reflexivity|simpl; lia].
    + exists [SelectPathIdIn (p :: ps)]. split; [reflexivity|simpl; lia].
Qed.

Section Delete.

Variable delete_by_ids : list Z -> M Z.

(** X9. When no entity carries any of the requested path ids,
    [delete_by_path_ids] answers 0 and leaves the database as it is:
    [delete_by_ids] is not called, whatever it would do. *)
Theorem delete_by_path_ids_no_match (path_ids : list string) (s : Session) :
  (forall e, In e (entity_table (db s)) -> ~ In (path_id e) path_ids) ->
  fst (delete_by_path_ids delete_by_ids path_ids s) = 0%Z /\
  db (snd (delete_by_path_ids delete_by_ids path_ids s)) = db s.
Proof.
  intro Hnone.
  destruct path_ids as [|p ps]; [split; reflexivity|].
  unfold delete_by_path_ids, bind.
  destruct (find_by_path_ids (p :: ps) s) as [entities s1] eqn:Hfind.
  pose proof (find_by_path_ids_named (p :: ps) s) as [Hn Hdb].
  rewrite Hfind in Hn, Hdb. simpl in Hn, Hdb.
  destruct entities as [|e l]; [split; [reflexivity|exact Hdb]|].
  exfalso.
  assert (He : In e (named (p :: ps) (db s))) by (rewrite <- Hn; now left).
  apply named_in in He. destruct He as [He Hp]. exact (Hnone e He Hp).
Qed.

(** X10. When some entity carries a requested path id,
    [delete_by_path_ids] hands the ids of exactly those entities, in table
    order, to [delete_by_ids], after one select, and returns its answer. *)
Theorem delete_by_path_ids_delegates (path_ids : list string) (s : Session)
    (e : Entity) :
  In e (entity_table (db s)) -> In (path_id e) path_ids ->
  delete_by_path_ids delete_by_ids path_ids s
  = delete_by_ids (map id (named path_ids (db s)))
      {| db := db s; executed := SelectPathIdIn path_ids :: executed s |}.
Proof.
  intros He Hp.
  assert (Hin : In e (named path_ids (db s))) by (apply named_in; now split).
  destruct path_ids as [|p ps]; [destruct Hp|].
  unfold delete_by_path_ids, bind, find_by_path_ids, execute_query, run.
  fold (named (p :: ps) (db s)).
  destruct (named (p :: ps) (db s)) as [|x l]; [destruct Hin|reflexivity].
Qed.

End Delete.

(** A [delete_by_ids] that removes the entities with the given ids and
    counts them. *)
Definition remove_ids (ids : list Z) : M Z :=
  fun s =>
    (Z.of_nat (List.length
                 (filter (fun e => existsb (Z.eqb (id e)) ids)
                         (entity_table (db s)))),
     {| db := {| entity_table :=
                   filter (fun e => negb (existsb (Z.eqb (id e)) ids))
                          (entity_table (db s));
                 observation_table := observation_table (db s) |};
        executed := executed s |}).

Lemma delete_by_path_ids_no_match_witness :
  (forall e, In e (entity_table (db demo_session)) ->
             ~ In (path_id e) ["design/missing"]) /\
  fst (delete_by_path_ids remove_ids ["design/missing"] demo_session) = 0%Z /\
  db (snd (delete_by_path_ids remove_ids ["design/missing"] demo_session))
  = db demo_session.
Proof.
  assert (H : forall e, In e (entity_table (db demo_session)) ->
                        ~ In (path_id e) ["design/missing"]).
  { intros e [<-|[<-|[]]] [Hp|[]]; discriminate Hp. }
  split; [exact H|].
  exact (delete_by_path_ids_no_match remove_ids ["design/missing"]
           demo_session H).
Defined.

Lemma delete_by_path_ids_delegates_witness :
  In {| id := 2; name := "Meeting"; entity_type := "note";
        description := Some "weekly"; path_id := "note/meeting" |}
     (entity_table (db demo_session)) /\
  fst (delete_by_path_ids remove_ids ["note/meeting"; "note/meeting"]
         demo_session) = 1%Z.
Proof.
  assert (H : In {| id := 2; name := "Meeting"; entity_type := "note";
                    description := Some "weekly"; path_id := "note/meeting" |}
                 (entity_table (db demo_session))) by (right; now left).
  split; [exact H|].
  rewrite (delete_by_path_ids_delegates remove_ids
             ["note/meeting"; "note/meeting"] demo_session _ H
             (or_introl eq_refl)).
  reflexivity.
Defined.

(** *** Search *)

Lemma like_any (s : string) : like "%%" s = true.
Proof.
  induction s as [|c s IH].
  - reflexivity.
  - rewrite like_percent_cons, like_percent. reflexivity.
Qed.

(** X11. The empty query matches everything: [search("")] returns the
    whole entity table. *)
Theorem search_empty_query (s : Session) :
  fst (search "" s) = entity_table (db s).
Proof.
  unfold search, execute_query, run. cbn [fst String.append].
  induction (entity_table (db s)) as [|e l IH]; [reflexivity|].
  cbn [filter]. rewrite IH.
  unfold search_where at 1, ilike at 1.
  change (lower "%%") with "%%". now rewrite like_any.
Qed.

Lemma lower_ascii_idempotent (c : ascii) :
  lower_ascii (lower_ascii c) = lower_ascii c.
Proof. destruct c as [[] [] [] [] [] [] [] []]; reflexivity. Qed.

Lemma lower_idempotent (s : string) : lower (lower s) = lower s.
Proof.
  induction s as [|c s IH]; [reflexivity|].
  simpl. now rewrite lower_ascii_idempotent, IH.
Qed.

Lemma ilike_pattern_case (column p p' : string) :
  lower p = lower p' -> ilike column p = ilike column p'.
Proof. unfold ilike. now intros ->. Qed.

(** X12. [search] ignores the letter case of the query: two queries that
    agree once lowercased return the same entities. *)
Theorem search_query_case (q q' : string) (s : Session) :
  lower q = lower q' ->
  fst (search q s) = fst (search q' s).
Proof.
  intro Hq. unfold search, execute_query, run. cbn [fst].
  assert (Hp : lower ("%" ++ q ++ "%") = lower ("%" ++ q' ++ "%")).
  { now rewrite !lower_app, Hq. }
  apply filter_ext. intro e. unfold search_where, ilike_null.
  rewrite !(ilike_pattern_case _ _ _ Hp).
  f_equal; [f_equal|].
  - destruct (description e); [now apply ilike_pattern_case|reflexivity].
  - induction (observation_table (db s)) as [|o l IH]; [reflexivity|].
    cbn [existsb]. now rewrite IH, (ilike_pattern_case _ _ _ Hp).
Qed.

Lemma search_query_case_witness :
  lower "SYNC" = lower "sync" /\
  fst (search "SYNC" demo_session) = fst (search "sync" demo_session).
Proof.
  split; [reflexivity|].
  exact (search_query_case "SYNC" "sync" demo_session eq_refl).
Defined.

End EntityRepositoryMore.

(* ===================================================================== *)
(** ** repository/entity_repository.py: list_entities *)
(* ===================================================================== *)

Module EntityListing.

Import EntityRepository.

(** An entity row with the [doc_id] column, which [list_entities] reads
    beside the columns of [Entity]. *)
Record Row : Type := mkRow
  { entity : Entity;
    doc_id : option Z }.

(** A relation row: the ids of its two entities. *)
Record Relation : Type := mkRelation
  { from_id : Z;
    to_id : Z }.

Record Tables : Type := mkTables
  { rows : list Row;
    relations : list Relation }.

(** [if entity_type:] on an [Optional[str]] *)
Definition truthy_str (v : option string) : bool :=
  match v with
  | Some t => negb (String.eqb t EmptyString)
  | None => false
  end.

(** [if doc_id:] on an [Optional[int]] *)
Definition truthy_int (v : option Z) : bool :=
  match v with
  | Some n => negb (Z.eqb n 0)
  | None => false
  end.

(** [entity.has(entity_type=t)] for the entity with the id [i]. *)
Definition has_type (d : Tables) (i : Z) (t : string) : bool :=
  existsb (fun r => Z.eqb (id (entity r)) i
                    && String.eqb (entity_type (entity r)) t)
          (rows d).

(** [Entity.outgoing_relations.any(Relation.to_entity.has(entity_type=t))] *)
Definition relates_to_type (d : Tables) (t : string) (r : Row) : bool :=
  existsb (fun rel => Z.eqb (from_id rel) (id (entity r))
                      && has_type d (to_id rel) t)
          (relations d).

(** [Entity.incoming_relations.any(Relation.from_entity.has(entity_type=t))] *)
Definition related_from_type (d : Tables) (t : string) (r : Row) : bool :=
  existsb (fun rel => Z.eqb (to_id rel) (id (entity r))
                      && has_type d (from_id rel) t)
          (relations d).

(** The [where] clauses [list_entities] adds. *)
Definition type_filter (d : Tables) (et : option string) (include_related : bool)
    (r : Row) : bool :=
  match et with
  | Some t =>
      if negb (String.eqb t EmptyString) then
        if include_related
        then String.eqb (entity_type (entity r)) t
             || relates_to_type d t r
             || related_from_type d t r
        else String.eqb (entity_type (entity r)) t
      else true
  | None => true
  end.

Definition doc_filter (did : option Z) (r : Row) : bool :=
  match did with
  | Some n =>
      if negb (Z.eqb n 0) then
        match doc_id r with
        | Some m => Z.eqb m n
        | None => false
        end
      else true
  | None => true
  end.

Section Listing.

(** The engine's [ORDER BY] for
    [asc(getattr(Entity, sort_by, Entity.updated_at))]. *)
Variable ordered_by : string -> list Row -> list Row.

(** [list_entities] *)
Definition list_entities (et : option string) (did : option Z)
    (sort_by : option string) (include_related : bool) (d : Tables)
  : list Row :=
  let selected :=
    filter (fun r => type_filter d et include_related r && doc_filter did r)
           (rows d) in
  match sort_by with
  | Some k => if negb (String.eqb k EmptyString) then ordered_by k selected
              else selected
  | None => selected
  end.

End Listing.

End EntityListing.

Module EntityListingFacts.

Import EntityRepository EntityListing.

Section Listing.

Variable ordered_by : string -> list Row -> list Row.

(** The engine returns the selected rows, in some order. *)
Definition ordering : Prop :=
  forall k l r, In r (ordered_by k l) <-> In r l.

Lemma list_entities_in (et : option string) (did : option Z)
    (sort_by : option string) (include_related : bool) (d : Tables) (r : Row) :
  ordering ->
  (In r (list_entities ordered_by et did sort_by include_related d) <->
   In r (rows d) /\ type_filter d et include_related r = true
   /\ doc_filter did r = true).
Proof.
  intro Hord. unfold list_entities.
  assert (Hsel : In r (filter (fun r => type_filter d et include_related r
                                        && doc_filter did r) (rows d)) <->
                 In r (rows d) /\ type_filter d et include_related r = true
                 /\ doc_filter did r = true).
  { rewrite filter_In, andb_true_iff. tauto. }
  destruct sort_by as [k|]; [|exact Hsel].
  destruct (negb (String.eqb k EmptyString)); [|exact Hsel].
  unfold ordering in Hord. rewrite Hord. exact Hsel.
Qed.

(** X13. A falsy filter is no filter: with [entity_type] left out or
    empty and [doc_id] left out or 0, [list_entities] selects every row of
    the table, so that entities of document 0 cannot be listed apart. *)
Theorem list_entities_falsy_filters (et : option string) (did : option Z)
    (sort_by : option string) (include_related : bool) (d : Tables) :
  et = None \/ et = Some EmptyString ->
  did = None \/ did = Some 0%Z ->
  list_entities ordered_by et did sort_by include_related d
  = list_entities ordered_by None None sort_by include_related d.
Proof.
  intros Het Hdid. unfold list_entities.
  assert (Hf : forall r, type_filter d et include_related r && doc_filter did r
                         = type_filter d None include_related r
                           && doc_filter None r).
  { intro r. destruct Het as [->| ->], Hdid as [->| ->]; reflexivity. }
  now rewrite (filter_ext _ _ Hf).
Qed.

(** X14. With a non-zero [doc_id], [list_entities] returns entities of
    that document only; with a non-empty [entity_type] and without
    [include_related], entities of that type only. *)
Theorem list_entities_filters (t : string) (n : Z) (sort_by : option string)
    (d : Tables) (r : Row) :
  ordering ->
  t <> EmptyString -> n <> 0%Z ->
  In r (list_entities ordered_by (Some t) (Some n) sort_by false d) ->
  In r (rows d) /\ entity_type (entity r) = t /\ doc_id r = Some n.
Proof.
  intros Hord Ht Hn Hin.
  apply (list_entities_in _ _ _ _ _ _ Hord) in Hin.
  destruct Hin as (Hr & Htype & Hdoc).
  unfold type_filter in Htype. unfold doc_filter in Hdoc.
  apply String.eqb_neq in Ht. apply Z.eqb_neq in Hn.
  rewrite Ht in Htype. rewrite Hn in Hdoc. simpl in Htype, Hdoc.
  apply String.eqb_eq in Htype.
  destruct (doc_id r) as [m|]; [|discriminate Hdoc].
  apply Z.eqb_eq in Hdoc. subst m. now repeat split.
Qed.

(** X15. [include_related] only widens a listing: every entity listed
    without it is listed with it. *)
Theorem list_entities_include_related (et : option string) (did : option Z)
    (sort_by : option string) (d : Tables) (r : Row) :
  ordering ->
  In r (list_entities ordered_by et did sort_by false d) ->
  In r (list_entities ordered_by et did sort_by true d).
Proof.
  intros Hord Hin.
  apply (list_entities_in _ _ _ _ _ _ Hord) in Hin.
  apply (list_entities_in _ _ _ _ _ _ Hord).
  destruct Hin as (Hr & Htype & Hdoc).
  split; [exact Hr|]. split; [|exact Hdoc].
  unfold type_filter in *. destruct et as [t|]; [|reflexivity].
  destruct (negb (String.eqb t EmptyString)); [|reflexivity].
  now rewrite Htype.
Qed.

End Listing.

(** The ordering by ascending id, by insertion. *)
Fixpoint insert_row (r : Row) (l : list Row) : list Row :=
  match l with
  | [] => [r]
  | x :: l' =>
      if Z.leb (id (entity r)) (id (entity x)) then r :: x :: l'
      else x :: insert_row r l'
  end.

Definition by_id (k : string) (l : list Row) : list Row :=
  fold_right insert_row [] l.

Lemma insert_row_in (r x : Row) (l : list Row) :
  In x (insert_row r l) <-> x = r \/ In x l.
Proof.
  induction l as [|y l IH]; simpl.
  - intuition.
  - destruct (Z.leb (id (entity r)) (id (entity y))); simpl.
    + intuition.
    + rewrite IH. intuition.
Qed.

Lemma by_id_ordering : ordering by_id.
Proof.
  intros k l r. unfold by_id. induction l as [|x l IH]; simpl.
  - tauto.
  - rewrite insert_row_in, IH. intuition.
Qed.

(** Two notes of document 7 and a design entity without document; the
    design entity relates to the first note. *)
Definition library : Tables :=
  {| rows :=
       [ {| entity := {| id := 1; name := "Meeting"; entity_type := "note";
                         description := None; path_id := "note/meeting" |};
            doc_id := Some 7%Z |};
         {| entity := {| id := 2; name := "Architecture";
                         entity_type := "design"; description := None;
                         path_id := "design/architecture" |};
            doc_id := None |};
         {| entity := {| id := 3; name := "Todo"; entity_type := "note";
                         description := None; path_id := "note/todo" |};
            doc_id := Some 7%Z |} ];
     relations := [ {| from_id := 2; to_id := 1 |} ] |}.

Lemma list_entities_falsy_filters_witness :
  (Some EmptyString = None \/ Some EmptyString = Some EmptyString) /\
  (Some 0%Z = None \/ Some 0%Z = Some 0%Z) /\
  map (fun r => id (entity r))
      (list_entities by_id (Some EmptyString) (Some 0%Z) (Some "id") false
         library)
  = [1%Z; 2%Z; 3%Z].
Proof.
  split; [now right|]. split; [now right|].
  rewrite (list_entities_falsy_filters by_id (Some EmptyString) (Some 0%Z)
             (Some "id") false library (or_intror eq_refl)
             (or_intror eq_refl)).
  reflexivity.
Defined.

Lemma list_entities_filters_witness :
  "note" <> EmptyString /\ 7%Z <> 0%Z /\
  In (mkRow (mkEntity 3 "Todo" "note" None "note/todo") (Some 7%Z))
     (list_entities by_id (Some "note") (Some 7%Z) (Some "id") false library) /\
  doc_id (mkRow (mkEntity 3 "Todo" "note" None "note/todo") (Some 7%Z))
  = Some 7%Z.
Proof.
  assert (Ht : "note" <> EmptyString) by discriminate.
  assert (Hn : 7%Z <> 0%Z) by discriminate.
  assert (Hin : In (mkRow (mkEntity 3 "Todo" "note" None "note/todo") (Some 7%Z))
                   (list_entities by_id (Some "note") (Some 7%Z) (Some "id")
                      false library)) by (right; now left).
  split; [exact Ht|]. split; [exact Hn|]. split; [exact Hin|].
  exact (proj2 (proj2 (list_entities_filters by_id "note" 7 (Some "id")
                         library _ by_id_ordering Ht Hn Hin))).
Defined.

Lemma list_entities_include_related_witness :
  In (mkRow (mkEntity 1 "Meeting" "note" None "note/meeting") (Some 7%Z))
     (list_entities by_id (Some "note") None (Some "id") false library) /\
  In (mkRow (mkEntity 1 "Meeting" "note" None "note/meeting") (Some 7%Z))
     (list_entities by_id (Some "note") None (Some "id") true library) /\
  List.length (list_entities by_id (Some "note") None (Some "id") true library)
  = 3.
Proof.
  assert (Hin : In (mkRow (mkEntity 1 "Meeting" "note" None "note/meeting")
                          (Some 7%Z))
                   (list_entities by_id (Some "note") None (Some "id") false
                      library)) by (now left).
  split; [exact Hin|]. split; [|reflexivity].
  exact (list_entities_include_related by_id (Some "note") None (Some "id")
           library _ by_id_ordering Hin).
Defined.

End EntityListingFacts.

(* ===================================================================== *)
(** ** More about sync *)
(* ===================================================================== *)

Module SyncServiceMore.

Import SyncService.

Section Sync.

Variable World : Type.
Variable EntityMarkdown : Type.
Variable Entity : Type.
Variable find_knowledge_changes : string -> World -> Exception + SyncReport.
Variable parse_file : string -> World -> Exception + EntityMarkdown.
Variable delete_entity_by_file_path : string -> M World unit.
Variable create_entity_from_markdown : string -> EntityMarkdown -> M World Entity.
Variable update_entity_and_observations : string -> EntityMarkdown -> M World Entity.
Variable update_entity_relations : EntityMarkdown -> string -> M World Entity.
Variable index_entity : Entity -> M World unit.
Variable frontmatter_id : EntityMarkdown -> string.

Local Abbreviation sync :=
  (SyncService.sync World EntityMarkdown Entity find_knowledge_changes
     parse_file delete_entity_by_file_path create_entity_from_markdown
     update_entity_and_observations update_entity_relations index_entity
     frontmatter_id).

Local Abbreviation parse_files :=
  (SyncService.parse_files World EntityMarkdown parse_file).

(** X16. When the scanner reports no new, no modified and no deleted
    path, [sync] returns the report and leaves the world as it is: no
    entity service, parser or indexer is called, whatever they would do. *)
Theorem sync_nothing_to_do (directory : string) (w : World) (r : SyncReport) :
  find_knowledge_changes directory w = inr r ->
  total_changes r = 0 ->
  sync directory w = (inr r, w).
Proof.
  intros Hr Hzero. unfold total_changes in Hzero.
  assert (Hn : new r = []) by (destruct (new r); [reflexivity|simpl in Hzero; lia]).
  assert (Hm : modified r = [])
    by (destruct (modified r); [reflexivity|simpl in Hzero; lia]).
  assert (Hd : deleted r = [])
    by (destruct (deleted r); [reflexivity|simpl in Hzero; lia]).
  unfold SyncService.sync, bind, reading. rewrite Hr, Hn, Hm, Hd. reflexivity.
Qed.

(** The parsing loop never writes; it raises as soon as the parser
    does. *)
Lemma parse_files_raises (directory : string) (paths : list string)
    (d : list (string * EntityMarkdown)) (w : World) (p : string)
    (e : Exception) :
  In p paths ->
  parse_file (path_join directory p) w = inl e ->
  exists e', parse_files directory paths d w = (inl e', w).
Proof.
  revert d. induction paths as [|x paths IH]; intros d Hin Hp; [destruct Hin|].
  simpl. unfold bind, reading.
  destruct (parse_file (path_join directory x) w) as [e'|md] eqn:Hx.
  - now exists e'.
  - destruct Hin as [->|Hin]; [congruence|]. now apply IH.
Qed.

(** X17. A file that cannot be parsed aborts the cycle after the
    deletions: when the parser raises for a new or modified path, [sync]
    raises, and the world is the one the deletion loop left. No entity has
    been created, updated or indexed, and the deletions are not undone. *)
Theorem sync_parse_error (directory : string) (w w1 : World) (r : SyncReport)
    (u : unit) (p : string) (e : Exception) :
  find_knowledge_changes directory w = inr r ->
  for_each World (deleted r) delete_entity_by_file_path w = (inr u, w1) ->
  In p (new r ++ modified r) ->
  parse_file (path_join directory p) w1 = inl e ->
  exists e', sync directory w = (inl e', w1).
Proof.
  intros Hr Hdel Hin Hp.
  destruct (parse_files_raises directory _ [] w1 p e Hin Hp) as (e' & He').
  exists e'. unfold SyncService.sync, bind, reading.
  now rewrite Hr, Hdel, He'.
Qed.

(** A deletion that fails aborts the cycle before anything is parsed
    or written for the new and modified files: [sync] raises the error of
    the deletion loop, in the world that loop left. *)
Theorem sync_delete_error (directory : string) (w w1 : World) (r : SyncReport)
    (e : Exception) :
  find_knowledge_changes directory w = inr r ->
  for_each World (deleted r) delete_entity_by_file_path w = (inl e, w1) ->
  sync directory w = (inl e, w1).
Proof.
  intros Hr Hdel. unfold SyncService.sync, bind, reading.
  now rewrite Hr, Hdel.
Qed.

End Sync.

Section Mirror.

Variable World : Type.
Variable EntityMarkdown : Type.
Variable Entity : Type.
Variable find_knowledge_changes : string -> World -> Exception + SyncReport.
Variable parse_file : string -> World -> Exception + EntityMarkdown.
Variable delete_entity_by_file_path : string -> M World unit.
Variable create_entity_from_markdown : string -> EntityMarkdown -> M World Entity.
Variable update_entity_and_observations : string -> EntityMarkdown -> M World Entity.
Variable update_entity_relations : EntityMarkdown -> string -> M World Entity.
Variable index_entity : Entity -> M World unit.
Variable frontmatter_id : EntityMarkdown -> string.
Variable Files : Type.
Variable files : World -> Files.
Variable on_disk : Files -> string -> option string.
Variable in_store : World -> string -> option (option string).
Variable directory : string.

(** X18. After a cycle that returns, the store mirrors the tree: [sync]
    has written no file, every visible file has an entity that carries the
    file's checksum, and no entity is left without a file; in particular
    no entity keeps a null checksum. This holds for collaborators that
    keep the contracts under which [sync] is idempotent. *)
Theorem sync_mirrors_tree (w w' : World) (r : SyncReport) :
  scan_contract World find_knowledge_changes Files files on_disk in_store
    directory ->
  delete_contract World delete_entity_by_file_path Files files in_store ->
  create_contract World EntityMarkdown Entity create_entity_from_markdown
    Files files in_store ->
  update_contract World EntityMarkdown Entity parse_file
    update_entity_and_observations frontmatter_id Files files in_store
    directory ->
  relations_contract World EntityMarkdown Entity parse_file
    update_entity_relations Files files in_store directory ->
  index_contract World Entity index_entity Files files in_store ->
  SyncService.sync World EntityMarkdown Entity find_knowledge_changes
    parse_file delete_entity_by_file_path create_entity_from_markdown
    update_entity_and_observations update_entity_relations index_entity
    frontmatter_id directory w = (inr r, w') ->
  files w' = files w /\
  (forall p, in_store w' p = option_map Some (on_disk (files w') p)) /\
  (forall p, in_store w' p <> Some None).
Proof.
  intros Hscan Hdel Hcreate Hupdate Hrel Hindex Hrun.
  destruct (sync_consistent World EntityMarkdown Entity
              find_knowledge_changes parse_file delete_entity_by_file_path
              create_entity_from_markdown update_entity_and_observations
              update_entity_relations index_entity frontmatter_id
              Files files on_disk in_store directory w w' r
              Hscan Hdel Hcreate Hupdate Hrel Hindex Hrun) as [Hf Hcons].
  split; [exact Hf|]. split; [exact Hcons|].
  intro p. rewrite (Hcons p). now destruct (on_disk (files w') p).
Qed.

End Mirror.

End SyncServiceMore.

(* ===================================================================== *)
(** ** The calls of one cycle *)
(* ===================================================================== *)

(** Collaborators that do nothing but record the writing calls [sync]
    makes, in order. *)
Module Recorder.

Import SyncService.

Inductive Call : Type :=
  | Deleted (file_path : string)
  | Created (file_path : string) (entity_markdown : string)
  | Updated (permalink : string) (entity_markdown : string)
  | Related (entity_markdown : string) (checksum : string)
  | Indexed (entity : string).

(** The calls so far, earliest first. *)
Definition World : Type := list Call.

Section Services.

(** What the scanner reports, what the parser makes of a file (the
    markdown of a file is represented by a string, which is also its
    frontmatter id), and the paths whose deletion fails. *)
Variable report : SyncReport.
Variable parse : string -> Exception + string.
Variable refuses : string -> bool.

Definition find_knowledge_changes (directory : string) (w : World)
  : Exception + SyncReport := inr report.

Definition parse_file (full : string) (w : World) : Exception + string :=
  parse full.

Definition delete_entity_by_file_path (p : string) : M World unit :=
  fun w => if refuses p then (inl (ServiceError p), w)
           else (inr tt, w ++ [Deleted p]).

Definition create_entity_from_markdown (p md : string) : M World string :=
  fun w => (inr md, w ++ [Created p md]).

Definition update_entity_and_observations (permalink md : string)
  : M World string :=
  fun w => (inr md, w ++ [Updated permalink md]).

Definition update_entity_relations (md c : string) : M World string :=
  fun w => (inr md, w ++ [Related md c]).

Definition index_entity (e : string) : M World unit :=
  fun w => (inr tt, w ++ [Indexed e]).

Definition frontmatter_id (md : string) : string := md.

(** [sync] over the recording collaborators. *)
Definition sync (directory : string) : M World SyncReport :=
  SyncService.sync World string string
    find_knowledge_changes parse_file delete_entity_by_file_path
    create_entity_from_markdown update_entity_and_observations
    update_entity_relations index_entity frontmatter_id directory.

End Services.

(** A parser that returns the full path of the file as its markdown. *)
Definition parse_path (full : string) : Exception + string := inr full.

(** [parsed_entities] for that parser: one entry for each path of the
    list. *)
Definition parsed_paths (directory : string) (paths : list string)
  : list (string * string) :=
  fold_left (fun d p => dict_set p (path_join directory p) d) paths [].

(** The call of the first pass for one entry. *)
Definition first_call (r : SyncReport) (item : string * string) : list Call :=
  if existsb (String.eqb (fst item)) (new r)
  then [Created (fst item) (snd item)]
  else [Updated (snd item) (snd item)].

(** The calls of the second pass for one entry. *)
Definition second_calls (r : SyncReport) (item : string * string) : list Call :=
  match dict_get (checksums r) (fst item) with
  | Some c => [Related (snd item) c; Indexed (snd item)]
  | None => []
  end.

End Recorder.

Module RecorderFacts.

Import SyncService Recorder.

(** A loop whose body appends its calls to the record appends the calls
    of all its elements, in order. *)
Lemma for_each_records {A : Type} (body : A -> M World unit)
    (calls : A -> list Call) (l : list A) (w : World) :
  (forall x, In x l -> forall w', body x w' = (inr tt, w' ++ calls x)) ->
  for_each World l body w = (inr tt, w ++ flat_map calls l).
Proof.
  revert w. induction l as [|x l IH]; intros w Hbody; simpl.
  - unfold ret. now rewrite app_nil_r.
  - unfold bind. rewrite (Hbody x (or_introl eq_refl)).
    rewrite IH by (intros y Hy; apply Hbody; now right).
    now rewrite app_assoc.
Qed.

Lemma parse_files_paths (directory : string) (paths : list string)
    (d : list (string * string)) (w : World) :
  parse_files World string (parse_file parse_path) directory paths d w
  = (inr (fold_left (fun d p => dict_set p (path_join directory p) d) paths d),
     w).
Proof.
  revert d. induction paths as [|p paths IH]; intro d; simpl; [reflexivity|].
  unfold bind, reading, parse_file, parse_path. apply IH.
Qed.

Lemma dict_keys_set {V : Type} (k : string) (v : V) (d : list (string * V))
    (p : string) :
  In p (map fst (dict_set k v d)) <-> p = k \/ In p (map fst d).
Proof.
  induction d as [|[k' v'] d IH]; simpl.
  - split; [intros [H|[]]; now left|intros [H|[]]; now left].
  - destruct (String.eqb k k') eqn:E; simpl.
    + apply String.eqb_eq in E. subst k'.
      split; [intros [H|H]; [now left|right; now right]|].
      intros [H|[H|H]]; [now left|now left|now right].
    + rewrite IH.
      split; [intros [H|[H|H]]; [right; now left|now left|right; now right]|].
      intros [H|[H|H]]; [right; now left|now left|right; now right].
Qed.

Lemma dict_keys_nodup {V : Type} (k : string) (v : V) (d : list (string * V)) :
  NoDup (map fst d) -> NoDup (map fst (dict_set k v d)).
Proof.
  induction d as [|[k' v'] d IH]; simpl; intro H.
  - constructor; [intros []|constructor].
  - destruct (String.eqb k k') eqn:E; simpl.
    + apply String.eqb_eq in E. now subst k'.
    + inversion H as [|? ? Hn Hd]; subst. constructor; [|now apply IH].
      rewrite dict_keys_set. intros [->|Hin]; [|now apply Hn].
      now rewrite String.eqb_refl in E.
Qed.

Lemma fold_dict_keys (directory : string) (paths : list string)
    (d : list (string * string)) :
  NoDup (map fst d) ->
  NoDup (map fst (fold_left (fun d p => dict_set p (path_join directory p) d)
                            paths d)) /\
  forall p, In p (map fst (fold_left
                             (fun d p => dict_set p (path_join directory p) d)
                             paths d)) <->
            In p (map fst d) \/ In p paths.
Proof.
  revert d. induction paths as [|x paths IH]; intros d Hd; simpl.
  - split; [exact Hd|]. intro p. tauto.
  - destruct (IH (dict_set x (path_join directory x) d)) as [Hnd Hin].
    { now apply dict_keys_nodup. }
    split; [exact Hnd|]. intro p. rewrite Hin, dict_keys_set.
    split; intros [H|H]; auto; destruct H; auto.
Qed.

(** X19. The order of a cycle. When nothing fails, [sync] makes its
    writing calls in three rounds: first every deletion; then, for every
    new or modified path once, a create if the path is new and an update
    otherwise; and only then, for every such path once more, the relation
    update with the scanned checksum followed by the indexing of that
    entity. A new path is never updated, and nothing is created or updated
    after the first relation update. *)
Theorem sync_call_order (r : SyncReport) (directory : string) (w : World) :
  (forall p, In p (new r ++ modified r) -> dict_get (checksums r) p <> None) ->
  let parsed := parsed_paths directory (new r ++ modified r) in
  NoDup (map fst parsed) /\
  (forall p, In p (map fst parsed) <-> In p (new r ++ modified r)) /\
  sync r parse_path (fun _ => false) directory w
  = (inr r,
     w ++ map Deleted (deleted r)
       ++ flat_map (first_call r) parsed
       ++ flat_map (second_calls r) parsed).
Proof.
  intros Hsums parsed.
  destruct (fold_dict_keys directory (new r ++ modified r) [])
    as [Hnd Hkeys]; [constructor|].
  fold (parsed_paths directory (new r ++ modified r)) in Hnd, Hkeys.
  fold parsed in Hnd, Hkeys.
  split; [exact Hnd|]. split; [intro p; rewrite Hkeys; simpl; tauto|].
  unfold sync, SyncService.sync, bind, reading, find_knowledge_changes.
  rewrite (for_each_records _ (fun p => [Deleted p]))
    by (intros; reflexivity).
  rewrite parse_files_paths.
  fold (parsed_paths directory (new r ++ modified r)). fold parsed.
  rewrite (for_each_records _ (first_call r)).
  2:{ intros [p md] _ w'. unfold first_pass, first_call, bind, ret. simpl.
      now destruct (existsb (String.eqb p) (new r)). }
  rewrite (for_each_records _ (second_calls r)).
  2:{ intros [p md] Hin w'. unfold second_pass, second_calls, bind. simpl.
      destruct (dict_get (checksums r) p) as [c|] eqn:Hc.
      - unfold update_entity_relations, index_entity.
        now rewrite <- app_assoc.
      - exfalso. apply (Hsums p); [|exact Hc].
        assert (Hp : In p (map fst parsed))
          by (apply in_map_iff; now exists (p, md)).
        apply Hkeys in Hp. destruct Hp as [[]|Hp]. exact Hp. }
  unfold ret. f_equal.
  assert (Hd : flat_map (fun p => [Deleted p]) (deleted r)
               = map Deleted (deleted r)).
  { induction (deleted r) as [|x l IH]; simpl; [reflexivity|now rewrite IH]. }
  now rewrite Hd, <- !app_assoc.
Qed.

End RecorderFacts.

(* ===================================================================== *)
(** ** The cycle on concrete collaborators *)
(* ===================================================================== *)

Module SyncExamples.

Import SyncService.

(** The report of a scan that finds the store of [synced_world] in step
    with its tree. *)
Definition quiet_report : SyncReport :=
  {| new := []; modified := []; deleted := [];
     checksums := [("a.md", "c1"); ("b.md", "c2")] |}.

Lemma sync_nothing_to_do_witness :
  InMemory.find_knowledge_changes "docs" InMemoryFacts.synced_world
  = inr quiet_report /\
  total_changes quiet_report = 0 /\
  InMemory.sync "docs" InMemoryFacts.synced_world
  = (inr quiet_report, InMemoryFacts.synced_world).
Proof.
  split; [reflexivity|]. split; [reflexivity|].
  exact (SyncServiceMore.sync_nothing_to_do InMemory.World string string
           InMemory.find_knowledge_changes (InMemory.parse_file "docs")
           InMemory.delete_entity_by_file_path
           InMemory.create_entity_from_markdown
           InMemory.update_entity_and_observations
           InMemory.update_entity_relations InMemory.index_entity
           InMemory.frontmatter_id "docs" InMemoryFacts.synced_world
           quiet_report eq_refl eq_refl).
Defined.

Lemma sync_mirrors_tree_witness :
  InMemory.sync "docs" InMemoryFacts.stale_world
  = (inr InMemoryFacts.first_report, InMemoryFacts.synced_world) /\
  InMemory.tree InMemoryFacts.synced_world
  = InMemory.tree InMemoryFacts.stale_world /\
  (forall p, InMemory.in_store InMemoryFacts.synced_world p
             = option_map Some
                 (InMemory.on_disk (InMemory.tree InMemoryFacts.synced_world) p)) /\
  (forall p, InMemory.in_store InMemoryFacts.synced_world p <> Some None).
Proof.
  split; [reflexivity|].
  exact (SyncServiceMore.sync_mirrors_tree InMemory.World string string
           InMemory.find_knowledge_changes (InMemory.parse_file "docs")
           InMemory.delete_entity_by_file_path
           InMemory.create_entity_from_markdown
           InMemory.update_entity_and_observations
           InMemory.update_entity_relations InMemory.index_entity
           InMemory.frontmatter_id
           (list (string * InMemory.File)) InMemory.tree InMemory.on_disk
           InMemory.in_store "docs"
           InMemoryFacts.stale_world InMemoryFacts.synced_world
           InMemoryFacts.first_report
           (InMemoryFacts.scan_keeps_contract "docs")
           InMemoryFacts.delete_keeps_contract
           InMemoryFacts.create_keeps_contract
           (InMemoryFacts.update_keeps_contract "docs")
           (InMemoryFacts.relations_keeps_contract "docs")
           InMemoryFacts.index_keeps_contract eq_refl).
Defined.

(** A scan that finds one note gone, one new and one modified. *)
Definition busy_report : SyncReport :=
  {| new := ["new.md"]; modified := ["changed.md"]; deleted := ["gone.md"];
     checksums := [("changed.md", "c1"); ("new.md", "c2")] |}.

(** A parser that cannot read [new.md]. *)
Definition parse_but_new (full : string) : Exception + string :=
  if String.eqb full "docs/new.md"
  then inl (ServiceError "malformed frontmatter")
  else inr full.

Lemma sync_parse_error_witness :
  exists e',
    Recorder.sync busy_report parse_but_new (fun _ => false) "docs" []
    = (inl e', [Recorder.Deleted "gone.md"]).
Proof.
  exact (SyncServiceMore.sync_parse_error Recorder.World string string
           (Recorder.find_knowledge_changes busy_report)
           (Recorder.parse_file parse_but_new)
           (Recorder.delete_entity_by_file_path (fun _ => false))
           Recorder.create_entity_from_markdown
           Recorder.update_entity_and_observations
           Recorder.update_entity_relations Recorder.index_entity
           Recorder.frontmatter_id "docs" [] [Recorder.Deleted "gone.md"]
           busy_report tt "new.md"
           (ServiceError "malformed frontmatter")
           eq_refl eq_refl (or_introl eq_refl) eq_refl).
Defined.

Lemma sync_delete_error_witness :
  Recorder.sync busy_report Recorder.parse_path (String.eqb "gone.md") "docs" []
  = (inl (ServiceError "gone.md"), []).
Proof.
  exact (SyncServiceMore.sync_delete_error Recorder.World string string
           (Recorder.find_knowledge_changes busy_report)
           (Recorder.parse_file Recorder.parse_path)
           (Recorder.delete_entity_by_file_path (String.eqb "gone.md"))
           Recorder.create_entity_from_markdown
           Recorder.update_entity_and_observations
           Recorder.update_entity_relations Recorder.index_entity
           Recorder.frontmatter_id "docs" [] [] busy_report
           (ServiceError "gone.md") eq_refl eq_refl).
Defined.

Lemma sync_call_order_witness :
  (forall p, In p (new busy_report ++ modified busy_report) ->
             dict_get (checksums busy_report) p <> None) /\
  Recorder.sync busy_report Recorder.parse_path (fun _ => false) "docs" []
  = (inr busy_report,
     [ Recorder.Deleted "gone.md";
       Recorder.Created "new.md" "docs/new.md";
       Recorder.Updated "docs/changed.md" "docs/changed.md";
       Recorder.Related "docs/new.md" "c2";
       Recorder.Indexed "docs/new.md";
       Recorder.Related "docs/changed.md" "c1";
       Recorder.Indexed "docs/changed.md" ]).
Proof.
  assert (H : forall p, In p (new busy_report ++ modified busy_report) ->
                        dict_get (checksums busy_report) p <> None).
  { intros p [<-|[<-|[]]]; discriminate. }
  split; [exact H|].
  exact (proj2 (proj2 (RecorderFacts.sync_call_order busy_report "docs" [] H))).
Defined.

End SyncExamples.

(* ===================================================================== *)
(** ** The steps of link resolution *)
(* ===================================================================== *)

Module LinkResolverSteps.

Import PyStr LinkResolver.

Section Resolve.

Variable Entity : Type.
Variable get_by_permalink : string -> option Entity.
Variable get_by_title : string -> option Entity.

(** X20. The search service is consulted only when both exact lookups
    fail: for a link whose target is the permalink or the title of an
    entity, [resolve_link] returns the same entity whatever the search
    service would answer, the permalink match first. *)
Theorem resolve_link_exact_first
    (search1 search2 : string -> list SearchResult) (link_text : string) :
  get_by_permalink (fst (_normalize_link_text link_text)) <> None \/
  get_by_title (fst (_normalize_link_text link_text)) <> None ->
  resolve_link Entity get_by_permalink get_by_title search1 link_text
  = resolve_link Entity get_by_permalink get_by_title search2 link_text /\
  resolve_link Entity get_by_permalink get_by_title search1 link_text
  = match get_by_permalink (fst (_normalize_link_text link_text)) with
    | Some e => Some e
    | None => get_by_title (fst (_normalize_link_text link_text))
    end.
Proof.
  unfold resolve_link.
  destruct (_normalize_link_text link_text) as [clean alias]. simpl.
  intro H.
  destruct (get_by_permalink clean) as [e|]; [split; reflexivity|].
  destruct (get_by_title clean) as [e|]; [split; reflexivity|].
  destruct H as [H|H]; now elim H.
Qed.

(** X21. The fuzzy step invents nothing: when neither exact lookup hits
    and [resolve_link] still returns an entity, that entity is the one the
    repository holds under the permalink of one of the search results for
    the target. With no search result it returns nothing. *)
Theorem resolve_link_fuzzy_from_results
    (search : string -> list SearchResult) (link_text : string) (e : Entity) :
  get_by_permalink (fst (_normalize_link_text link_text)) = None ->
  get_by_title (fst (_normalize_link_text link_text)) = None ->
  resolve_link Entity get_by_permalink get_by_title search link_text = Some e ->
  exists r,
    In r (search (fst (_normalize_link_text link_text))) /\
    get_by_permalink (sr_permalink r) = Some e.
Proof.
  unfold resolve_link.
  destruct (_normalize_link_text link_text) as [clean alias]. cbn [fst].
  intros -> -> Hres.
  destruct (search clean) as [|r0 rs]; [discriminate Hres|].
  destruct (LinkResolverFacts.select_best_match_largest clean r0 rs)
    as (best & Hbest & Hin & _).
  rewrite Hbest in Hres. now exists best.
Qed.

End Resolve.

Lemma resolve_link_exact_first_witness :
  (LinkResolverFacts.two_entities
     (fst (_normalize_link_text "[[notes/alpha]]")) <> None \/
   (fun _ : string => @None Z)
     (fst (_normalize_link_text "[[notes/alpha]]")) <> None) /\
  resolve_link Z LinkResolverFacts.two_entities (fun _ => None)
    (fun _ => [LinkResolverFacts.far_result]) "[[notes/alpha]]" = Some 1%Z.
Proof.
  assert (H : LinkResolverFacts.two_entities
                (fst (_normalize_link_text "[[notes/alpha]]")) <> None \/
              (fun _ : string => @None Z)
                (fst (_normalize_link_text "[[notes/alpha]]")) <> None)
    by (left; discriminate).
  split; [exact H|].
  rewrite (proj2 (resolve_link_exact_first Z LinkResolverFacts.two_entities
                    (fun _ => None) (fun _ => [LinkResolverFacts.far_result])
                    (fun _ => []) "[[notes/alpha]]" H)).
  reflexivity.
Defined.

Lemma resolve_link_fuzzy_from_results_witness :
  exists r,
    In r [LinkResolverFacts.near_result; LinkResolverFacts.far_result] /\
    LinkResolverFacts.two_entities (sr_permalink r) = Some 2%Z.
Proof.
  exact (resolve_link_fuzzy_from_results Z LinkResolverFacts.two_entities
           (fun _ => None)
           (fun _ => [LinkResolverFacts.near_result;
                      LinkResolverFacts.far_result])
           "[[zeta]]" 2%Z eq_refl eq_refl eq_refl).
Defined.

End LinkResolverSteps.

(* ===================================================================== *)
(** ** A path without checksum *)
(* ===================================================================== *)

Module RecorderKeyError.

Import SyncService Recorder RecorderFacts.

(** A loop that records until its body raises stops there. *)
Lemma for_each_records_until {A : Type} (body : A -> M World unit)
    (calls : A -> list Call) (before after : list A) (x : A) (e : Exception)
    (w : World) :
  (forall y, In y before -> forall w', body y w' = (inr tt, w' ++ calls y)) ->
  (forall w', body x w' = (inl e, w')) ->
  for_each World (before ++ x :: after) body w
  = (inl e, w ++ flat_map calls before).
Proof.
  revert w. induction before as [|y before IH]; intros w Hbody Hx; simpl.
  - unfold bind. rewrite Hx. now rewrite app_nil_r.
  - unfold bind. rewrite (Hbody y (or_introl eq_refl)).
    rewrite IH; [now rewrite app_assoc| |exact Hx].
    intros z Hz. apply Hbody. now right.
Qed.

(** X22. A new or modified path that has no checksum in the report makes
    [sync] raise [KeyError] for that path, but only in the second pass:
    by then every deletion is done and every parsed file has been created
    or updated, and the files before it have had their relations and
    index written. *)
Theorem sync_missing_checksum (r : SyncReport) (directory : string) (w : World)
    (before after : list (string * string)) (p md : string) :
  parsed_paths directory (new r ++ modified r) = before ++ (p, md) :: after ->
  (forall q, In q (map fst before) -> dict_get (checksums r) q <> None) ->
  dict_get (checksums r) p = None ->
  sync r parse_path (fun _ => false) directory w
  = (inl (KeyError p),
     w ++ map Deleted (deleted r)
       ++ flat_map (first_call r) (before ++ (p, md) :: after)
       ++ flat_map (second_calls r) before).
Proof.
  intros Hparsed Hbefore Hp.
  unfold sync, SyncService.sync, bind, reading, find_knowledge_changes.
  rewrite (for_each_records _ (fun q => [Deleted q]))
    by (intros; reflexivity).
  rewrite parse_files_paths.
  fold (parsed_paths directory (new r ++ modified r)). rewrite Hparsed.
  rewrite (for_each_records _ (first_call r)).
  2:{ intros [q m] _ w'. unfold first_pass, first_call, bind, ret. simpl.
      now destruct (existsb (String.eqb q) (new r)). }
  rewrite (for_each_records_until _ (second_calls r) before after (p, md)
             (KeyError p)).
  - assert (Hd : flat_map (fun q => [Deleted q]) (deleted r)
                 = map Deleted (deleted r)).
    { induction (deleted r) as [|x l IH]; simpl; [reflexivity|now rewrite IH]. }
    now rewrite Hd, <- !app_assoc.
  - intros [q m] Hin w'. unfold second_pass, second_calls, bind. simpl.
    destruct (dict_get (checksums r) q) as [c|] eqn:Hc.
    + unfold update_entity_relations, index_entity. now rewrite <- app_assoc.
    + exfalso. apply (Hbefore q); [|exact Hc].
      apply in_map_iff. now exists (q, m).
  - intro w'. unfold second_pass, raise. now rewrite Hp.
Qed.

(** The report of [busy_report] without the checksum of [changed.md]. *)
Definition short_report : SyncReport :=
  {| new := ["new.md"]; modified := ["changed.md"]; deleted := ["gone.md"];
     checksums := [("new.md", "c2")] |}.

Lemma sync_missing_checksum_witness :
  sync short_report parse_path (fun _ => false) "docs" []
  = (inl (KeyError "changed.md"),
     [ Deleted "gone.md";
       Created "new.md" "docs/new.md";
       Updated "docs/changed.md" "docs/changed.md";
       Related "docs/new.md" "c2";
       Indexed "docs/new.md" ]).
Proof.
  apply (sync_missing_checksum short_report "docs" []
           [("new.md", "docs/new.md")] [] "changed.md" "docs/changed.md").
  - reflexivity.
  - intros q [<-|[]]. discriminate.
  - reflexivity.
Defined.

End RecorderKeyError.

(* ===================================================================== *)
(** ** Sync over entity services that rewrite frontmatter *)
(* ===================================================================== *)

Module FrontmatterRewrite.

Import PyStr SyncService.

(** A markdown file: the permalink of its frontmatter, when it has one,
    its title and the rest of its text. *)
Record Note : Type := mkNote
  { note_permalink : option string;
    note_title : string;
    note_body : string }.

(** The text of a file. The checksum of a file is represented by its
    text: a file that is rewritten with another text gets another
    checksum. *)
Definition text (n : Note) : string :=
  match note_permalink n with
  | Some p => ("permalink: " ++ p ++ "; " ++ note_title n ++ "; " ++ note_body n)%string
  | None => (note_title n ++ "; " ++ note_body n)%string
  end.

(** The files, and the store of section 3 of the specification. *)
Record World : Type := mkWorld
  { tree : list (string * Note);
    store : EntityStore.Store }.

(** What the change detector looks at: the checksums of the files, and the
    [file_path -> checksum] column of the entity table. *)
Definition scanned (w : World) : InMemory.World :=
  {| InMemory.tree :=
       map (fun pn => (fst pn, {| InMemory.readable := true;
                                  InMemory.checksum := text (snd pn) |}))
           (tree w);
     InMemory.table :=
       map (fun e => (EntityStore.file_path e, EntityStore.checksum e))
           (EntityStore.entities (store w));
     InMemory.index := [] |}.

(** What phase 4 reads of a file. *)
Definition parsed (n : Note) : EntityStore.ParsedEntity :=
  {| EntityStore.fm_permalink := note_permalink n;
     EntityStore.parsed_title := note_title n;
     EntityStore.parsed_relations := [] |}.

(** The file at [path] gets [permalink: p] in its frontmatter. *)
Definition write_frontmatter (path p : string) (t : list (string * Note))
  : list (string * Note) :=
  map (fun pn =>
         if String.eqb (fst pn) path
         then (fst pn, {| note_permalink := Some p;
                          note_title := note_title (snd pn);
                          note_body := note_body (snd pn) |})
         else pn)
      t.

(** [frontmatter] already records the permalink [p]. *)
Definition records (frontmatter : option string) (p : string) : bool :=
  match frontmatter with
  | Some q => String.eqb q p
  | None => false
  end.

Section Services.

Variable directory : string.

(** The scan and the diff of sections 4.A and 4.B, over the checksums of
    the files as they are when the scan runs. *)
Definition find_knowledge_changes (dir : string) (w : World)
  : Exception + SyncReport :=
  InMemory.find_knowledge_changes dir (scanned w).

(** The markdown of a file: its relative path and its content. *)
Definition parse_file (full : string) (w : World)
  : Exception + (string * Note) :=
  match find (fun pn => String.eqb (path_join directory (fst pn)) full)
             (tree w) with
  | Some pn => inr pn
  | None => inl (SyncError full)
  end.

Definition frontmatter_id (md : string * Note) : string :=
  EntityStore.candidate_permalink (fst md) (parsed (snd md)).

Definition delete_entity_by_file_path (path : string) : M World unit :=
  fun w =>
    (inr tt,
     {| tree := tree w;
        store := EntityStore.delete_by_file_path (store w) path |}).

(** Modelled from the spec: phase 4 of section 4.E for one file, with its
    step 5: the entity is upserted under its resolved permalink, and when
    that permalink is not the one of the frontmatter the file is rewritten
    to record it ([test_sync_permalink_resolved_on_update]: [one.md] is
    created without frontmatter and holds [permalink: one] after the
    sync). *)
Definition upsert (md : string * Note) : M World EntityStore.Entity :=
  fun w =>
    let (path, note) := md in
    let s := EntityStore.sync_entity (store w) path (parsed note) in
    match EntityStore.find_by_file_path s path with
    | None => (inl (ServiceError "entity not found"), w)
    | Some e =>
        (inr e,
         {| tree :=
              if records (note_permalink note) (EntityStore.permalink e)
              then tree w
              else write_frontmatter path (EntityStore.permalink e) (tree w);
            store := s |})
    end.

Definition create_entity_from_markdown (file_path : string)
    (md : string * Note) : M World EntityStore.Entity :=
  upsert md.

Definition update_entity_and_observations (permalink : string)
    (md : string * Note) : M World EntityStore.Entity :=
  upsert md.

(** Modelled from the spec: phase 5 for one file; its step 4 commits the
    checksum it is given. *)
Definition update_entity_relations (md : string * Note) (c : string)
  : M World EntityStore.Entity :=
  fun w =>
    let s := EntityStore.sync_relations (fun _ _ => []) (store w)
               (fst md) (parsed (snd md)) c in
    match EntityStore.find_by_file_path s (fst md) with
    | None => (inl (ServiceError "entity not found"), w)
    | Some e => (inr e, {| tree := tree w; store := s |})
    end.

(** The search index plays no part here. *)
Definition index_entity (e : EntityStore.Entity) : M World unit :=
  fun w => (inr tt, w).

(** [sync] over these collaborators. *)
Definition sync : M World SyncReport :=
  SyncService.sync World (string * Note) EntityStore.Entity
    find_knowledge_changes parse_file delete_entity_by_file_path
    create_entity_from_markdown update_entity_and_observations
    update_entity_relations index_entity frontmatter_id directory.

End Services.

End FrontmatterRewrite.

Module FrontmatterRewriteFacts.

Import SyncService FrontmatterRewrite.

(** The tree [test_sync_permalink_resolved_on_update] starts from, with
    one of its two files: [one.md] holds [test content] and no
    frontmatter; the store is empty. *)
Definition fresh_world : World :=
  {| tree := [ ("one.md", {| note_permalink := None;
                             note_title := "one";
                             note_body := "test content" |}) ];
     store := {| EntityStore.entities := [];
                 EntityStore.relations := [];
                 EntityStore.next_id := 1 |} |}.

(** After the first run: the file records [permalink: one], and the
    entity holds the checksum of the file as it was scanned. *)
Definition after_first_sync : World :=
  {| tree := [ ("one.md", {| note_permalink := Some "one";
                             note_title := "one";
                             note_body := "test content" |}) ];
     store := {| EntityStore.entities :=
                   [ {| EntityStore.id := 1;
                        EntityStore.permalink := "one";
                        EntityStore.title := "one";
                        EntityStore.file_path := "one.md";
                        EntityStore.checksum := Some "one; test content" |} ];
                 EntityStore.relations := [];
                 EntityStore.next_id := 2 |} |}.

(** After the second run: the entity holds the checksum of the rewritten
    file. *)
Definition after_second_sync : World :=
  {| tree := tree after_first_sync;
     store := {| EntityStore.entities :=
                   [ {| EntityStore.id := 1;
                        EntityStore.permalink := "one";
                        EntityStore.title := "one";
                        EntityStore.file_path := "one.md";
                        EntityStore.checksum :=
                          Some "permalink: one; one; test content" |} ];
                 EntityStore.relations := [];
                 EntityStore.next_id := 2 |} |}.


(** The run after that one reports nothing and changes nothing. *)
Example third_sync_reports_nothing :
  sync "docs" after_second_sync
  = (inr {| new := []; modified := []; deleted := [];
            checksums := [("one.md", "permalink: one; one; test content")] |},
     after_second_sync).
Proof. reflexivity. Qed.

(** These services break the contract under which [sync] is idempotent:
    creating the entity of [one.md] changes the file. *)
Example create_rewrites_file :
  exists md e w',
    create_entity_from_markdown "one.md" md fresh_world = (inr e, w') /\
    tree w' <> tree fresh_world.
Proof.
  exists ("one.md", {| note_permalink := None; note_title := "one";
                       note_body := "test content" |}).
  eexists. eexists. split; [reflexivity|]. discriminate.
Qed.

End FrontmatterRewriteFacts.
